(** * adaptive_smoothing.c: kernel evaluator, coordinate mapper, accumulator

    A shallow embedding of [src/adaptive_smoothing.c] and the properties its
    specification states about it.

    The source is embedded twice.

    The first embedding is the source in exact arithmetic.
    - A C [double] is a real number ([R]); every floating-point operation is
      the exact real operation, so rounding, overflow, infinities and NaN are
      outside the model.  Decimal literals of the source denote their decimal
      value.
    - A C [int] is an integer ([Z]); signed overflow, which C leaves
      undefined, is outside the model.  So is the cast [(int) x] of a double
      whose truncation is no [int]: [int_range] is the range of [int], and
      the statements that depend on it assume that the values the mapper
      returns lie in it.
    - A division by zero is outside the model as well (in [R] it has the
      value [0]): the statements that depend on it assume a smoothing length
      and a [num_rhalfs] that are positive.
    - A C array is a [list R]; an access outside the list is undefined in C
      and is the error [None] here, so [add] lives in the option monad.

    The second embedding, the module [Binary64], is the same source, line by
    line, over IEEE 754 binary64 numbers and 32-bit integers, as the source
    runs when compiled for x86-64.  It is executable and serves to evaluate
    the code at given inputs, where the two embeddings differ. *)

From Stdlib Require Import Reals Machin Lra Lia ZArith List Bool Psatz.
From Stdlib Require PrimFloat FloatOps SpecFloat Uint63.
Import ListNotations.
Import (notations) PrimFloat.

Set Warnings "-inexact-float".

Open Scope R_scope.

(** ** The parts of [math.h] and of the C conversions the source uses *)

(** [floor]: the largest integral value not above [x], still a double. *)
Definition floor (x : R) : R := IZR (Zfloor x).

Definition fmax (a b : R) : R := Rmax a b.
Definition fmin (a b : R) : R := Rmin a b.

(** The cast [(int) x] truncates toward zero.  C defines it only when the
    truncation is a value of the type [int] ([int_range], below); the
    truncation is returned here whatever its size. *)
Definition int_of_double (x : R) : Z :=
  if Rle_dec 0 x then Zfloor x else Zceil x.

(** The implicit conversion of an [int] argument to [double]. *)
Definition double_of_int (n : Z) : R := IZR n.

(** ** [sph_kernel] *)

Definition pi : R := 3.141592653589793.

(** The evaluator in exact arithmetic: no rounding, no underflow or overflow
    of [7.0*pi*h*h], no infinity or NaN.  The division by [h = 0] is outside
    the model. *)
Definition sph_kernel (r h : R) : R :=
  let x := r / h in
  let retval :=
    if Rle_dec x 0.5 then
      1.0 - 6.0*x*x + 6.0*x*x*x
    else if Rle_dec x (double_of_int 1) then
      2.0 * (1.0 - x) * (1.0 - x) * (1.0 - x)
    else
      0.0 in
  4.0 * 10.0 / (7.0*pi*h*h) * retval.

(** ** [rhalfs_to_pixels] *)

(** The mapper in exact arithmetic: the exact floor, whatever its size.  The
    division by [num_rhalfs = 0] is outside the model. *)
Definition rhalfs_to_pixels (r : R) (npix : Z) (num_rhalfs : R) : Z :=
  int_of_double
    (floor (double_of_int npix / 2.0
            + r * double_of_int npix / (2.0 * num_rhalfs))).

(** ** Arrays and loops *)

Definition bind {A B : Type} (m : option A) (f : A -> option B) : option B :=
  match m with
  | Some a => f a
  | None => None
  end.

Notation "x <- m ;; k" := (bind m (fun x => k))
  (at level 61, m at next level, right associativity).

(** [A[n]] as an rvalue. *)
Definition load (A : list R) (n : Z) : option R :=
  if (n <? 0)%Z then None else nth_error A (Z.to_nat n).

Fixpoint upd (A : list R) (n : nat) (v : R) : list R :=
  match A, n with
  | [], _ => []
  | _ :: t, O => v :: t
  | a :: t, S m => a :: upd t m v
  end.

(** [A[n] = v]. *)
Definition store (A : list R) (n : Z) (v : R) : option (list R) :=
  if ((0 <=? n) && (n <? Z.of_nat (length A)))%Z
  then Some (upd A (Z.to_nat n) v)
  else None.

(** [lo, lo+1, ..., hi-1]: the values the counter of
    [for (i = lo; i < hi; i++)] takes. *)
Definition zrange (lo hi : Z) : list Z :=
  map (fun t => (lo + Z.of_nat t)%Z) (seq 0 (Z.to_nat (hi - lo))).

Fixpoint foldM {A S : Type} (body : A -> S -> option S) (l : list A) (s : S)
  : option S :=
  match l with
  | [] => Some s
  | a :: t => s' <- body a s ;; foldM body t s'
  end.

(** [for (i = lo; i < hi; i++) body], the body leaving [i] and [hi] alone. *)
Definition for_lt {S : Type} (lo hi : Z) (body : Z -> S -> option S)
  : S -> option S :=
  foldM body (zrange lo hi).

(** ** [add] *)

Definition num_hsml : R := 2.8.

(** The body of the innermost loop.  The output array is called [Zf] here,
    [Z] being the type of integers. *)
Definition add_cell (X Y : list R) (ny : Z) (x0 y0 weights : list R)
  (k : Z) (h : R) (i j : Z) (Zf : list R) : option (list R) :=
  let n := (i * ny + j)%Z in
  X_n <- load X n ;;
  x0_k <- load x0 k ;;
  Y_n <- load Y n ;;
  y0_k <- load y0 k ;;
  let r := sqrt ((X_n - x0_k) * (X_n - x0_k) + (Y_n - y0_k) * (Y_n - y0_k)) in
  Z_n <- load Zf n ;;
  weights_k <- load weights k ;;
  store Zf n (Z_n + weights_k * sph_kernel r h).

(** The four bounds of the box of a source, as the four declarations at the
    head of the loop body compute them. *)
Record box : Type := Box { imin : Z; imax : Z; jmin : Z; jmax : Z }.

Definition bbox (nx ny : Z) (x0_k y0_k h num_rhalfs : R) : box :=
  {| imin := int_of_double (fmax (double_of_int 0)
       (double_of_int (rhalfs_to_pixels (y0_k - h) ny num_rhalfs)));
     imax := int_of_double (fmin (double_of_int (ny - 1))
       (double_of_int (rhalfs_to_pixels (y0_k + h) ny num_rhalfs)));
     jmin := int_of_double (fmax (double_of_int 0)
       (double_of_int (rhalfs_to_pixels (x0_k - h) nx num_rhalfs)));
     jmax := int_of_double (fmin (double_of_int (nx - 1))
       (double_of_int (rhalfs_to_pixels (x0_k + h) nx num_rhalfs))) |}.

(** The body of the loop over the sources. *)
Definition add_point (X Y : list R) (nx ny : Z) (x0 y0 weights hsml : list R)
  (num_rhalfs : R) (k : Z) (Zf : list R) : option (list R) :=
  hsml_k <- load hsml k ;;
  let h := num_hsml * hsml_k in
  y0_k <- load y0 k ;;
  x0_k <- load x0 k ;;
  let b := bbox nx ny x0_k y0_k h num_rhalfs in
  for_lt (imin b) (imax b + 1) (fun i =>
    for_lt (jmin b) (jmax b + 1) (fun j =>
      add_cell X Y ny x0 y0 weights k h i j)) Zf.

Definition add (X Y Zf : list R) (nx ny : Z) (x0 y0 weights hsml : list R)
  (npoints : Z) (num_rhalfs : R) : option (list R) :=
  for_lt 0 npoints (add_point X Y nx ny x0 y0 weights hsml num_rhalfs) Zf.

(** ** The specification's kernel (spec section 4.2), for comparison *)

(** The two polynomial pieces of [W_raw]. *)
Definition W_inner (x : R) : R := 1 - 6 * x^2 + 6 * x^3.
Definition W_outer (x : R) : R := 2 * (1 - x)^3.

(** [W_raw x v]: the specification's piecewise definition gives [v] at [x].
    It says nothing for [x < 0]. *)
Inductive W_raw (x : R) : R -> Prop :=
| W_raw_inner : 0 <= x <= 1/2 -> W_raw x (W_inner x)
| W_raw_outer : 1/2 < x <= 1 -> W_raw x (W_outer x)
| W_raw_zero : 1 < x -> W_raw x 0.

(** The 2-D normalisation [40 / (7 pi h^2)]. *)
Definition norm2d (h : R) : R := 40 / (7 * pi * h^2).

(** The specification's mapper (spec section 4.1): real division, floor toward
    minus infinity. *)
Definition index (r : R) (npix : Z) (R0 : R) : Z :=
  Zfloor (IZR npix / 2 + r * IZR npix / (2 * R0)).

(** ** The specification's accumulator (spec section 4.3), for comparison *)

(** The value of cell [n] of an array, for reading a result. *)
Definition cell (A : list R) (n : Z) : R := nth (Z.to_nat n) A 0.

Definition Rsum (l : list R) : R := fold_right Rplus 0 l.

(** Step 1: the support radius. *)
Definition spec_h (hsml_k : R) : R := 2.8 * hsml_k.

(** Step 2: the inclusive bounding box, each bound mapped along its own axis
    and clipped to [[0, extent - 1]]: rows from [y0] against [ny], columns
    from [x0] against [nx]. *)
Definition spec_imin (ny : Z) (R0 y0_k h : R) : Z :=
  Z.max 0 (index (y0_k - h) ny R0).
Definition spec_imax (ny : Z) (R0 y0_k h : R) : Z :=
  Z.min (ny - 1) (index (y0_k + h) ny R0).
Definition spec_jmin (nx : Z) (R0 x0_k h : R) : Z :=
  Z.max 0 (index (x0_k - h) nx R0).
Definition spec_jmax (nx : Z) (R0 x0_k h : R) : Z :=
  Z.min (nx - 1) (index (x0_k + h) nx R0).

(** Step 3: what the cell [(i, j)] of the box adds at the linear index [m]:
    [w * W(r, h)] at [m = i * ny + j], nothing elsewhere. *)
Definition spec_contribution (X Y : list R) (ny : Z) (x0_k y0_k w_k h : R)
  (i j m : Z) : R :=
  let n := (i * ny + j)%Z in
  if (n =? m)%Z
  then w_k * sph_kernel
               (sqrt ((cell X n - x0_k)^2 + (cell Y n - y0_k)^2)) h
  else 0.

(** All that one source adds at the linear index [m]. *)
Definition spec_deposit (X Y : list R) (nx ny : Z) (R0 : R)
  (x0_k y0_k w_k hsml_k : R) (m : Z) : R :=
  let h := spec_h hsml_k in
  Rsum (map (fun i =>
    Rsum (map (fun j => spec_contribution X Y ny x0_k y0_k w_k h i j m)
              (zrange (spec_jmin nx R0 x0_k h) (spec_jmax nx R0 x0_k h + 1))))
    (zrange (spec_imin ny R0 y0_k h) (spec_imax ny R0 y0_k h + 1))).

(** All that the sources [0 .. npoints - 1] add at the linear index [m]. *)
Definition spec_total (X Y : list R) (nx ny : Z) (x0 y0 weights hsml : list R)
  (npoints : Z) (R0 : R) (m : Z) : R :=
  Rsum (map (fun k =>
    spec_deposit X Y nx ny R0
      (cell x0 k) (cell y0 k) (cell weights k) (cell hsml k) m)
    (zrange 0 npoints)).

(** Every cell of the box of a source has its linear index inside an array
    of [L] cells. *)
Definition box_in_grid (L : nat) (nx ny : Z) (R0 x0_k y0_k hsml_k : R)
  : Prop :=
  let h := spec_h hsml_k in
  forall i j : Z,
    (spec_imin ny R0 y0_k h <= i <= spec_imax ny R0 y0_k h)%Z ->
    (spec_jmin nx R0 x0_k h <= j <= spec_jmax nx R0 x0_k h)%Z ->
    (0 <= i * ny + j < Z.of_nat L)%Z.

(** [f] adds [amt m] to every cell [m] of an array of [L] cells, and does
    not fail. *)
Definition adds (L : nat) (f : list R -> option (list R)) (amt : Z -> R)
  : Prop :=
  forall Zf, length Zf = L ->
    exists Zf', f Zf = Some Zf' /\ length Zf' = L
      /\ forall m, (0 <= m < Z.of_nat L)%Z -> cell Zf' m = cell Zf m + amt m.

(** The pairing of coordinates and axes in the other order: rows from [x0]
    against [ny], columns from [y0] against [nx]. *)
Definition swapped_box (nx ny : Z) (x0_k y0_k h R0 : R) : box :=
  {| imin := Z.max 0 (index (x0_k - h) ny R0);
     imax := Z.min (ny - 1) (index (x0_k + h) ny R0);
     jmin := Z.max 0 (index (y0_k - h) nx R0);
     jmax := Z.min (nx - 1) (index (y0_k + h) nx R0) |}.

(** A box with no cell. *)
Definition box_empty (b : box) : Prop :=
  (imax b < imin b)%Z \/ (jmax b < jmin b)%Z.

(** The position lies more than [h] beyond an edge of the domain
    [[-R0, R0] x [-R0, R0]]. *)
Definition beyond_edge (R0 x0_k y0_k h : R) : Prop :=
  R0 + h < x0_k \/ x0_k < - R0 - h \/ R0 + h < y0_k \/ y0_k < - R0 - h.

(** A zeroed array of [L] cells, and the cell by cell sum of two arrays. *)
Definition zeros (L : nat) : list R := repeat 0 L.

Definition vadd (A B : list R) : list R :=
  map (fun p => fst p + snd p) (combine A B).

(** The grid of scenario S1 of the specification: 5 x 5 cells of spacing
    [0.5], cell [(2, 2)] at the origin. *)
Definition S1_X : list R :=
  [-1; -0.5; 0; 0.5; 1;  -1; -0.5; 0; 0.5; 1;  -1; -0.5; 0; 0.5; 1;
   -1; -0.5; 0; 0.5; 1;  -1; -0.5; 0; 0.5; 1].

Definition S1_Y : list R :=
  [-1; -1; -1; -1; -1;  -0.5; -0.5; -0.5; -0.5; -0.5;  0; 0; 0; 0; 0;
   0.5; 0.5; 0.5; 0.5; 0.5;  1; 1; 1; 1; 1].

(** ** Notions used in the further properties of the code *)

(** A polynomial [a2 r^2 + a3 r^3 + a4 r^4 + a5 r^5] and its derivative, for
    integrating the kernel over the plane. *)
Definition quintic (a2 a3 a4 a5 r : R) : R :=
  a2 * r^2 + a3 * r^3 + a4 * r^4 + a5 * r^5.

Definition quintic' (a2 a3 a4 a5 r : R) : R :=
  2 * a2 * r + 3 * a3 * r^2 + 4 * a4 * r^3 + 5 * a5 * r^4.

(** The kernel times the circumference [2 PI r]: what is integrated over
    [r] to integrate the kernel over the plane; and the constant factor of
    that product. *)
Definition plane_integrand (h r : R) : R := sph_kernel r h * (2 * PI * r).

Definition plane_factor (h : R) : R := norm2d h * (2 * PI).

(** The cell [(i, j)] lies in the box. *)
Definition in_box (b : box) (i j : Z) : Prop :=
  (imin b <= i <= imax b)%Z /\ (jmin b <= j <= jmax b)%Z.





(** ** The range of [int] *)

Definition INT_MIN : Z := (-2147483648)%Z.
Definition INT_MAX : Z := 2147483647%Z.

(** [z] is a value of the type [int].  C defines the cast [(int) x] only
    when the truncation of [x] is such a value. *)
Definition int_range (z : Z) : Prop := (INT_MIN <= z <= INT_MAX)%Z.

(** The four values that the mapper returns for a source (lines 34 to 37 of
    the source) are values of the type [int]. *)
Definition box_in_int (nx ny : Z) (R0 x0_k y0_k h : R) : Prop :=
  int_range (rhalfs_to_pixels (y0_k - h) ny R0)
  /\ int_range (rhalfs_to_pixels (y0_k + h) ny R0)
  /\ int_range (rhalfs_to_pixels (x0_k - h) nx R0)
  /\ int_range (rhalfs_to_pixels (x0_k + h) nx R0).



(** ** The loop body with the axes paired the other way *)

(** [add_point] as it would be with the row bounds taken from [x0[k] -/+ h]
    against [ny] and the column bounds from [y0[k] -/+ h] against [nx]:
    [swapped_box] in the place of [bbox], everything else as in the source. *)
Definition add_point_swapped (X Y : list R) (nx ny : Z)
  (x0 y0 weights hsml : list R) (num_rhalfs : R) (k : Z) (Zf : list R)
  : option (list R) :=
  hsml_k <- load hsml k ;;
  let h := num_hsml * hsml_k in
  y0_k <- load y0 k ;;
  x0_k <- load x0 k ;;
  let b := swapped_box nx ny x0_k y0_k h num_rhalfs in
  for_lt (imin b) (imax b + 1) (fun i =>
    for_lt (jmin b) (jmax b + 1) (fun j =>
      add_cell X Y ny x0 y0 weights k h i j)) Zf.

(** * The source in binary64 *)

(** The source over the numbers it runs on: a [double] is an IEEE 754
    binary64 number ([PrimFloat.float]: round to nearest even, infinities,
    NaN), an [int] is a 32-bit integer in two's complement.  The operations
    [+ - * /], [sqrt] and the comparisons are the primitive binary64
    operations; decimal literals denote the nearest binary64 number, as in
    C. *)
Module Binary64.

Import PrimFloat.
Local Open Scope float_scope.

(** [int] arithmetic: the result modulo [2^32], in [[INT_MIN, INT_MAX]]. *)
Definition wrap (z : Z) : Z := ((z - INT_MIN) mod 4294967296 + INT_MIN)%Z.

(** The double of value [z], for [0 <= z < 2^53]. *)
Definition of_nonneg (z : Z) : float := of_uint63 (Uint63.of_Z z).

(** The implicit conversion of an [int] argument to [double]; it is exact. *)
Definition double_of_int (n : Z) : float :=
  if (n <? 0)%Z then - of_nonneg (- n) else of_nonneg n.

(** [floor]: the largest integral value not above [x].  A finite [x] is
    [(-1)^s * m * 2^e] with [m < 2^53]; for [e >= 0] it is integral, and
    infinities, NaN and zeros are returned as they are. *)
Definition floor (x : float) : float :=
  match FloatOps.Prim2SF x with
  | SpecFloat.S754_finite s m e =>
      if (0 <=? e)%Z then x
      else
        let q := Z.shiftr (Zpos m) (- e) in
        if s then
          if (Z.shiftl q (- e) =? Zpos m)%Z then - of_nonneg q
          else - of_nonneg (q + 1)
        else of_nonneg q
  | _ => x
  end.

(** The cast [(int) x]: truncation toward zero.  Where the truncation is no
    [int], and for NaN, C leaves the cast undefined; the x86-64 conversion
    instruction then yields [INT_MIN]. *)
Definition int_of_double (x : float) : Z :=
  match FloatOps.Prim2SF x with
  | SpecFloat.S754_zero _ => 0%Z
  | SpecFloat.S754_finite s m e =>
      let q := if (0 <=? e)%Z then Z.shiftl (Zpos m) e
               else Z.shiftr (Zpos m) (- e) in
      let z := if s then (- q)%Z else q in
      if ((INT_MIN <=? z) && (z <=? INT_MAX))%Z then z else INT_MIN
  | _ => INT_MIN
  end.

(** [fmax] and [fmin]: a NaN argument is ignored. *)
Definition fmax (a b : float) : float :=
  if is_nan a then b else if is_nan b then a else if a <? b then b else a.

Definition fmin (a b : float) : float :=
  if is_nan a then b else if is_nan b then a else if b <? a then b else a.

Definition pi : float := 3.141592653589793.

Definition sph_kernel (r h : float) : float :=
  let x := r / h in
  let retval :=
    if x <=? 0.5 then
      1.0 - 6.0*x*x + 6.0*x*x*x
    else if x <=? double_of_int 1 then
      2.0 * (1.0 - x) * (1.0 - x) * (1.0 - x)
    else
      0.0 in
  4.0 * 10.0 / (7.0*pi*h*h) * retval.

Definition rhalfs_to_pixels (r : float) (npix : Z) (num_rhalfs : float) : Z :=
  int_of_double
    (floor (double_of_int npix / 2.0
            + r * double_of_int npix / (2.0 * num_rhalfs))).

Definition load (A : list float) (n : Z) : option float :=
  if (n <? 0)%Z then None else nth_error A (Z.to_nat n).

Fixpoint upd (A : list float) (n : nat) (v : float) : list float :=
  match A, n with
  | [], _ => []
  | _ :: A', O => v :: A'
  | a :: A', S n' => a :: upd A' n' v
  end.

Definition store (A : list float) (n : Z) (v : float)
  : option (list float) :=
  if ((0 <=? n) && (n <? Z.of_nat (length A)))%Z
  then Some (upd A (Z.to_nat n) v)
  else None.

Definition num_hsml : float := 2.8.

Definition add_cell (X Y : list float) (ny : Z) (x0 y0 weights : list float)
  (k : Z) (h : float) (i j : Z) (Zf : list float) : option (list float) :=
  let n := wrap (wrap (i * ny) + j) in
  X_n <- load X n ;;
  x0_k <- load x0 k ;;
  Y_n <- load Y n ;;
  y0_k <- load y0 k ;;
  let r := sqrt ((X_n - x0_k) * (X_n - x0_k) + (Y_n - y0_k) * (Y_n - y0_k)) in
  Z_n <- load Zf n ;;
  weights_k <- load weights k ;;
  store Zf n (Z_n + weights_k * sph_kernel r h).

Record box : Type := Box { imin : Z; imax : Z; jmin : Z; jmax : Z }.

Definition bbox (nx ny : Z) (x0_k y0_k h num_rhalfs : float) : box :=
  {| imin := int_of_double (fmax (double_of_int 0)
       (double_of_int (rhalfs_to_pixels (y0_k - h) ny num_rhalfs)));
     imax := int_of_double (fmin (double_of_int (wrap (ny - 1)))
       (double_of_int (rhalfs_to_pixels (y0_k + h) ny num_rhalfs)));
     jmin := int_of_double (fmax (double_of_int 0)
       (double_of_int (rhalfs_to_pixels (x0_k - h) nx num_rhalfs)));
     jmax := int_of_double (fmin (double_of_int (wrap (nx - 1)))
       (double_of_int (rhalfs_to_pixels (x0_k + h) nx num_rhalfs))) |}.

Definition add_point (X Y : list float) (nx ny : Z)
  (x0 y0 weights hsml : list float) (num_rhalfs : float) (k : Z)
  (Zf : list float) : option (list float) :=
  hsml_k <- load hsml k ;;
  let h := num_hsml * hsml_k in
  y0_k <- load y0 k ;;
  x0_k <- load x0 k ;;
  let b := bbox nx ny x0_k y0_k h num_rhalfs in
  for_lt (imin b) (wrap (imax b + 1)) (fun i =>
    for_lt (jmin b) (wrap (jmax b + 1)) (fun j =>
      add_cell X Y ny x0 y0 weights k h i j)) Zf.

Definition add (X Y Zf : list float) (nx ny : Z)
  (x0 y0 weights hsml : list float) (npoints : Z) (num_rhalfs : float)
  : option (list float) :=
  for_lt 0 npoints (add_point X Y nx ny x0 y0 weights hsml num_rhalfs) Zf.

End Binary64.

(** * Properties of the embedding in exact arithmetic *)

(** ** Conversions *)

Lemma int_of_double_IZR (z : Z) : int_of_double (IZR z) = z.
Proof.
  unfold int_of_double.
  destruct (Rle_dec 0 (IZR z)).
  - apply ZfloorZ.
  - unfold Zceil. rewrite <- opp_IZR, ZfloorZ. lia.
Qed.

Lemma int_of_floor (x : R) : int_of_double (floor x) = Zfloor x.
Proof. apply int_of_double_IZR. Qed.

Lemma fmax_int (a b : Z) :
  int_of_double (fmax (double_of_int a) (double_of_int b)) = Z.max a b.
Proof.
  unfold fmax, double_of_int, Rmax.
  destruct (Rle_dec (IZR a) (IZR b)) as [H | H]; rewrite int_of_double_IZR.
  - apply le_IZR in H. lia.
  - apply Rnot_le_lt, lt_IZR in H. lia.
Qed.

Lemma fmin_int (a b : Z) :
  int_of_double (fmin (double_of_int a) (double_of_int b)) = Z.min a b.
Proof.
  unfold fmin, double_of_int, Rmin.
  destruct (Rle_dec (IZR a) (IZR b)) as [H | H]; rewrite int_of_double_IZR.
  - apply le_IZR in H. lia.
  - apply Rnot_le_lt, lt_IZR in H. lia.
Qed.

Lemma rhalfs_to_pixels_index (r : R) (npix : Z) (R0 : R) :
  rhalfs_to_pixels r npix R0 = index r npix R0.
Proof.
  unfold rhalfs_to_pixels, index, double_of_int.
  rewrite int_of_floor.
  replace 2.0 with 2 by lra. reflexivity.
Qed.

(** The mapper stays in the range of [int] on grids of up to a million
    pixels a side, for coordinates within a thousand half-widths of the
    domain. *)
Lemma rhalfs_to_pixels_in_int (r : R) (npix : Z) (R0 : R) :
  0 < R0 -> (0 <= npix <= 1000000)%Z -> - (1000 * R0) <= r <= 1000 * R0 ->
  int_range (rhalfs_to_pixels r npix R0).
Proof.
  intros HR [Hn0 Hn1] [Hr0 Hr1].
  rewrite rhalfs_to_pixels_index. unfold index, int_range, INT_MIN, INT_MAX.
  set (v := IZR npix / 2 + r * IZR npix / (2 * R0)).
  assert (N0 : 0 <= IZR npix) by now apply IZR_le.
  assert (N1 : IZR npix <= 1000000) by now apply IZR_le.
  assert (T : exists t, r = t * R0 /\ -1000 <= t <= 1000).
  { exists (r / R0). split; [field; lra |].
    split; apply Rmult_le_reg_r with R0; try assumption;
      unfold Rdiv; rewrite Rmult_assoc, Rinv_l; lra. }
  destruct T as [t [-> [T0 T1]]].
  assert (E : v = IZR npix / 2 + t * IZR npix / 2)
    by (unfold v; field; lra).
  assert (P1 : 0 <= (t + 1000) * IZR npix) by (apply Rmult_le_pos; lra).
  assert (P2 : 0 <= (1000 - t) * IZR npix) by (apply Rmult_le_pos; lra).
  assert (Bv : -1000000000 <= v <= 1000000000) by (rewrite E; lra).
  pose proof (Zfloor_bound v) as [F0 F1].
  assert (L : (-1000000001 < Zfloor v + 1)%Z)
    by (apply lt_IZR; rewrite plus_IZR; lra).
  assert (U : (Zfloor v <= 1000000000)%Z) by (apply le_IZR; lra).
  lia.
Qed.

(** Discharge [box_in_int] at given numbers. *)
Ltac in_int_eval :=
  unfold box_in_int, cell, num_hsml; simpl;
  repeat split; apply rhalfs_to_pixels_in_int; try lra; lia.

(** ** The kernel, branch by branch *)

(** The source writes whole numbers as decimals ([6.0]); [ring] wants them
    as integers. *)
Ltac whole_literals :=
  replace 1.0 with 1 by lra; replace 2.0 with 2 by lra;
  replace 4.0 with 4 by lra; replace 6.0 with 6 by lra;
  replace 7.0 with 7 by lra; replace 10.0 with 10 by lra;
  replace 0.0 with 0 by lra.

Lemma pi_pos : 0 < pi.
Proof. unfold pi. lra. Qed.

(** The constant [pi] of the source and the number pi differ by less than
    [10^-15]: the source has pi to the precision of a double.  The bounds on
    pi are sixteen terms of the series of [2 atan (1/3) + atan (1/7)]. *)
Lemma pi_near_PI : Rabs (pi - PI) < 1 / 10^15.
Proof.
  pose proof (PI_2_3_7_ineq 7) as [Lo Hi].
  cbv [sum_f_R0 tg_alt PI_2_3_7_tg Ratan_seq Nat.mul Nat.add pow INR]
    in Lo, Hi.
  unfold pi. apply Rabs_def1; simpl pow; lra.
Qed.

Lemma norm2d_pos (h : R) : 0 < h -> 0 < norm2d h.
Proof.
  intros Hh. unfold norm2d.
  apply Rdiv_lt_0_compat; [lra |].
  apply Rmult_lt_0_compat; [pose proof pi_pos; lra | now apply pow_lt].
Qed.

Lemma sph_kernel_inner (r h : R) :
  r / h <= 1/2 -> sph_kernel r h = norm2d h * W_inner (r / h).
Proof.
  intros Hx. unfold sph_kernel, norm2d, W_inner.
  destruct (Rle_dec (r / h) 0.5) as [_ | N]; [| exfalso; lra].
  whole_literals. f_equal; [f_equal |]; ring.
Qed.

Lemma sph_kernel_outer (r h : R) :
  1/2 < r / h <= 1 -> sph_kernel r h = norm2d h * W_outer (r / h).
Proof.
  intros Hx. unfold sph_kernel, norm2d, W_outer, double_of_int.
  destruct (Rle_dec (r / h) 0.5) as [N | _]; [exfalso; lra |].
  destruct (Rle_dec (r / h) 1) as [_ | N]; [| exfalso; lra].
  whole_literals. f_equal; [f_equal |]; ring.
Qed.

Lemma sph_kernel_outside (r h : R) :
  1 < r / h -> sph_kernel r h = 0.
Proof.
  intros Hx. unfold sph_kernel, double_of_int.
  destruct (Rle_dec (r / h) 0.5) as [N | _]; [exfalso; lra |].
  destruct (Rle_dec (r / h) 1) as [N | _]; [exfalso; lra |].
  lra.
Qed.

Lemma ratio_nonneg (r h : R) : 0 <= r -> 0 < h -> 0 <= r / h.
Proof.
  intros Hr Hh. apply Rmult_le_pos; [assumption |].
  left. now apply Rinv_0_lt_compat.
Qed.

Lemma ratio_gt_1 (r h : R) : 0 < h -> h < r -> 1 < r / h.
Proof.
  intros Hh Hr. apply Rmult_lt_reg_r with h; [assumption |].
  unfold Rdiv. rewrite Rmult_assoc, Rinv_l; lra.
Qed.

Lemma ratio_le (r1 r2 h : R) : 0 < h -> r1 <= r2 -> r1 / h <= r2 / h.
Proof.
  intros Hh Hr. unfold Rdiv. apply Rmult_le_compat_r; [| assumption].
  left. now apply Rinv_0_lt_compat.
Qed.

Lemma W_inner_lower (x : R) : 0 <= x <= 1/2 -> 1/4 <= W_inner x.
Proof.
  unfold W_inner. intros [H0 H1].
  assert (A : 0 <= x * (1 - 2 * x)) by (apply Rmult_le_pos; lra).
  assert (B : 0 <= (1/2 - x) * (3/2 + 3 * (x * (1 - 2 * x))))
    by (apply Rmult_le_pos; lra).
  lra.
Qed.

(** In the inner half of the support the kernel is positive. *)
Lemma sph_kernel_pos_inner (r h : R) :
  0 <= r -> 0 < h -> r <= h / 2 -> 0 < sph_kernel r h.
Proof.
  intros Hr Hh Hrh.
  assert (X0 : 0 <= r / h) by now apply ratio_nonneg.
  assert (X1 : r / h <= 1/2).
  { apply Rmult_le_reg_r with h; [assumption |].
    unfold Rdiv. rewrite Rmult_assoc, Rinv_l; lra. }
  rewrite sph_kernel_inner by assumption.
  apply Rmult_lt_0_compat; [now apply norm2d_pos |].
  pose proof (W_inner_lower (r / h) (conj X0 X1)). lra.
Qed.

Lemma W_outer_range (x : R) : 1/2 <= x <= 1 -> 0 <= W_outer x <= 1/4.
Proof.
  unfold W_outer. intros [H0 H1].
  assert (A : 0 <= (1 - x) * (1 - x) <= 1/4) by nra.
  assert (B : 0 <= (1 - x) * ((1 - x) * (1 - x)) <= 1/8) by nra.
  simpl pow. lra.
Qed.

Lemma W_inner_decr (x1 x2 : R) :
  0 <= x1 -> x1 <= x2 -> x2 <= 1/2 -> W_inner x2 <= W_inner x1.
Proof.
  unfold W_inner. intros H0 H12 H2.
  assert (A : 0 <= x1 * (1 - x1 - x2)) by (apply Rmult_le_pos; lra).
  assert (B : 0 <= x2 * (1 - x2)) by (apply Rmult_le_pos; lra).
  assert (C : 0 <= (x2 - x1) * (x1 * (1 - x1 - x2) + x2 * (1 - x2)))
    by (apply Rmult_le_pos; lra).
  lra.
Qed.

Lemma W_outer_decr (x1 x2 : R) :
  x1 <= x2 -> x2 <= 1 -> W_outer x2 <= W_outer x1.
Proof.
  unfold W_outer. intros H12 H2.
  set (a := 1 - x1). set (b := 1 - x2).
  assert (Hb : 0 <= b) by (unfold b; lra).
  assert (Hab : b <= a) by (unfold a, b; lra).
  assert (A : 0 <= a * a + a * b + b * b) by nra.
  assert (B : 0 <= (a - b) * (a * a + a * b + b * b))
    by (apply Rmult_le_pos; lra).
  lra.
Qed.

(** The evaluator computes the specification's [W_raw], normalised. *)
Lemma sph_kernel_W_raw (r h : R) :
  0 <= r -> 0 < h ->
  exists v, W_raw (r / h) v /\ sph_kernel r h = norm2d h * v.
Proof.
  intros Hr Hh. pose proof (ratio_nonneg r h Hr Hh) as Hx.
  destruct (Rle_dec (r / h) (1/2)) as [H1 | H1].
  - exists (W_inner (r / h)). split.
    + now apply W_raw_inner.
    + now apply sph_kernel_inner.
  - apply Rnot_le_lt in H1.
    destruct (Rle_dec (r / h) 1) as [H2 | H2].
    + exists (W_outer (r / h)). split.
      * now apply W_raw_outer.
      * now apply sph_kernel_outer.
    + apply Rnot_le_lt in H2. exists 0. split.
      * now apply W_raw_zero.
      * rewrite sph_kernel_outside by assumption. ring.
Qed.

Lemma W_raw_nonneg (x v : R) : W_raw x v -> 0 <= v.
Proof.
  intros [H | H | H].
  - pose proof (W_inner_lower x H). lra.
  - apply W_outer_range. lra.
  - lra.
Qed.

Lemma W_raw_decr (x1 x2 v1 v2 : R) :
  W_raw x1 v1 -> W_raw x2 v2 -> x1 <= x2 -> v2 <= v1.
Proof.
  intros [A | A | A] [B | B | B] Hx; try (exfalso; lra).
  - apply W_inner_decr; lra.
  - pose proof (W_inner_lower x1 A).
    assert (Hb : 1/2 <= x2 <= 1) by lra.
    pose proof (W_outer_range x2 Hb). lra.
  - pose proof (W_inner_lower x1 A). lra.
  - apply W_outer_decr; lra.
  - assert (Ha : 1/2 <= x1 <= 1) by lra.
    pose proof (W_outer_range x1 Ha). lra.
  - lra.
Qed.

(** ** The breakpoints *)

Lemma W_inner_half : W_inner (1/2) = 1/4.
Proof. unfold W_inner. lra. Qed.

Lemma W_outer_half : W_outer (1/2) = 1/4.
Proof. unfold W_outer. lra. Qed.

Lemma W_outer_one : W_outer 1 = 0.
Proof. unfold W_outer. lra. Qed.

(** Each piece of the evaluator, with the breakpoints on both sides. *)
Lemma sph_kernel_pieces (h : R) :
  0 < h ->
  (forall r, r <= h / 2 -> sph_kernel r h = norm2d h * W_inner (r / h))
  /\ (forall r, h / 2 <= r <= h ->
        sph_kernel r h = norm2d h * W_outer (r / h))
  /\ (forall r, h <= r -> sph_kernel r h = 0).
Proof.
  intros Hh.
  assert (Hhalf : (h / 2) / h = 1/2) by (field; lra).
  assert (Hone : h / h = 1) by (field; lra).
  repeat split.
  - intros r Hr. apply sph_kernel_inner.
    rewrite <- Hhalf. now apply ratio_le.
  - intros r [Hlo Hhi].
    assert (L : 1/2 <= r / h) by (rewrite <- Hhalf; now apply ratio_le).
    assert (U : r / h <= 1) by (rewrite <- Hone; now apply ratio_le).
    destruct (Req_dec (r / h) (1/2)) as [E | N].
    + rewrite sph_kernel_inner by lra.
      now rewrite E, W_inner_half, W_outer_half.
    + apply sph_kernel_outer. lra.
  - intros r Hr.
    assert (L : 1 <= r / h) by (rewrite <- Hone; now apply ratio_le).
    destruct (Req_dec (r / h) 1) as [E | N].
    + rewrite sph_kernel_outer by lra. rewrite E, W_outer_one. ring.
    + apply sph_kernel_outside. lra.
Qed.

(** A function that agrees with [g1] just left of [a] and with [g2] just
    right of [a], both continuous at [a], is continuous at [a]. *)
Lemma continuity_pt_glue (f g1 g2 : R -> R) (lo a hi : R) :
  lo < a -> a < hi ->
  (forall r, lo <= r <= a -> f r = g1 r) ->
  (forall r, a <= r <= hi -> f r = g2 r) ->
  continuity_pt g1 a -> continuity_pt g2 a -> continuity_pt f a.
Proof.
  intros Hlo Hhi F1 F2 C1 C2 eps Heps.
  destruct (C1 eps Heps) as [d1 [Hd1 K1]].
  destruct (C2 eps Heps) as [d2 [Hd2 K2]].
  exists (Rmin (Rmin d1 d2) (Rmin (a - lo) (hi - a))).
  split; [repeat apply Rmin_pos; lra |].
  intros x [Dx Hx]. simpl in *. unfold R_dist in *.
  assert (B1 : Rabs (x - a) < d1).
  { eapply Rlt_le_trans; [exact Hx |].
    eapply Rle_trans; [apply Rmin_l | apply Rmin_l]. }
  assert (B2 : Rabs (x - a) < d2).
  { eapply Rlt_le_trans; [exact Hx |].
    eapply Rle_trans; [apply Rmin_l | apply Rmin_r]. }
  assert (B3 : Rabs (x - a) < a - lo).
  { eapply Rlt_le_trans; [exact Hx |].
    eapply Rle_trans; [apply Rmin_r | apply Rmin_l]. }
  assert (B4 : Rabs (x - a) < hi - a).
  { eapply Rlt_le_trans; [exact Hx |].
    eapply Rle_trans; [apply Rmin_r | apply Rmin_r]. }
  apply Rabs_def2 in B3. apply Rabs_def2 in B4.
  destruct (Rle_dec x a) as [Hle | Hgt].
  - rewrite (F1 x), (F1 a) by lra. apply K1. now split.
  - rewrite (F2 x), (F2 a) by lra. apply K2. now split.
Qed.

(** ** The mapper at the anchor points *)

Lemma Zfloor_half (n : Z) : Zfloor (IZR n / 2) = (n / 2)%Z.
Proof.
  apply Zfloor_eq.
  pose proof (Z.div_mod n 2 ltac:(lia)) as E.
  pose proof (Z.mod_pos_bound n 2 ltac:(lia)) as B.
  assert (Hn : IZR n = 2 * IZR (n / 2) + IZR (n mod 2)).
  { rewrite <- mult_IZR, <- plus_IZR. now f_equal. }
  assert (B0 : 0 <= IZR (n mod 2)) by (apply IZR_le; lia).
  assert (B1 : IZR (n mod 2) <= 1) by (apply IZR_le; lia).
  lra.
Qed.

(** ** Claims about the kernel evaluator and the mapper *)

(** C3, as stated: in binary64 the evaluator does not return a non-negative
    real number for every [r >= 0] and [h > 0].  At [h = 1e-200] the product
    [7.0*pi*h*h] underflows to zero and the normalisation [40 / 0] is
    infinite: at [r = 1], where [W_raw (r / h)] is [0], the product
    [inf * 0.0] is NaN, and at [r = 0] the result is infinite. *)
Lemma sph_kernel_binary64_not_real :
  (0 <=? 1)%float = true /\ (0 <? 1e-200)%float = true
  /\ PrimFloat.is_nan (Binary64.sph_kernel 1 1e-200) = true
  /\ (0 <=? Binary64.sph_kernel 1 1e-200)%float = false
  /\ Binary64.sph_kernel 0 1e-200 = PrimFloat.infinity.
Proof. repeat split; vm_compute; reflexivity. Qed.

(** C3, amended: in exact arithmetic, for [r >= 0] and [h > 0],
    [sph_kernel r h] is [40 / (7 pi h^2)] times the piecewise polynomial
    [W_raw (r / h)] of the specification, with the 2-D constant
    [40 / (7 pi)] ([pi] being the constant of that name in the source), and
    the value is not negative. *)
Theorem sph_kernel_spec (r h : R) :
  0 <= r -> 0 < h ->
  (exists v, W_raw (r / h) v /\ sph_kernel r h = 40 / (7 * pi * h^2) * v)
  /\ 0 <= sph_kernel r h
  /\ Rabs (pi - PI) < 1 / 10^15.
Proof.
  intros Hr Hh.
  destruct (sph_kernel_W_raw r h Hr Hh) as [v [Hv E]].
  split; [| split].
  - exists v. split; [assumption | exact E].
  - rewrite E. apply Rmult_le_pos.
    + left. now apply norm2d_pos.
    + now apply W_raw_nonneg with (r / h).
  - exact pi_near_PI.
Qed.

Lemma sph_kernel_spec_witness :
  (exists v, W_raw (1 / 4) v /\ sph_kernel 1 4 = 40 / (7 * pi * 4^2) * v)
  /\ 0 <= sph_kernel 1 4
  /\ Rabs (pi - PI) < 1 / 10^15.
Proof. apply (sph_kernel_spec 1 4); lra. Defined.

(** C5, as stated: in binary64 the evaluator does not return zero for every
    [h > 0] and [r > h].  At [h = 1e-200] and [r = 1] the third branch is
    taken, but the normalisation is infinite ([7.0*pi*h*h] underflows to
    zero) and the product with [retval = 0.0] is NaN, which is not zero. *)
Lemma sph_kernel_binary64_support :
  (0 <? 1e-200)%float = true /\ (1e-200 <? 1)%float = true
  /\ (Binary64.sph_kernel 1 1e-200 =? 0)%float = false.
Proof. repeat split; vm_compute; reflexivity. Qed.

(** C5, amended: in exact arithmetic the kernel has compact support; for
    [h > 0] and [r > h] it is exactly zero. *)
Theorem sph_kernel_compact_support (r h : R) :
  0 < h -> h < r -> sph_kernel r h = 0.
Proof.
  intros Hh Hr. apply sph_kernel_outside. now apply ratio_gt_1.
Qed.

Lemma sph_kernel_compact_support_witness : sph_kernel 3 2 = 0.
Proof. apply (sph_kernel_compact_support 3 2); lra. Defined.

(** C6: in exact arithmetic the mapper sends the origin to [floor (npix/2)],
    the right edge [R0] of the domain to [npix] (one past the last cell) and
    the left edge [- R0] to [0]. *)
Theorem rhalfs_to_pixels_anchors (npix : Z) (R0 : R) :
  (1 <= npix)%Z -> 0 < R0 ->
  rhalfs_to_pixels 0 npix R0 = Zfloor (IZR npix / 2)
  /\ rhalfs_to_pixels 0 npix R0 = (npix / 2)%Z
  /\ rhalfs_to_pixels R0 npix R0 = npix
  /\ rhalfs_to_pixels (- R0) npix R0 = 0%Z.
Proof.
  intros Hn HR. rewrite !rhalfs_to_pixels_index. unfold index.
  assert (E0 : IZR npix / 2 + 0 * IZR npix / (2 * R0) = IZR npix / 2)
    by (field; lra).
  assert (E1 : IZR npix / 2 + R0 * IZR npix / (2 * R0) = IZR npix)
    by (field; lra).
  assert (E2 : IZR npix / 2 + - R0 * IZR npix / (2 * R0) = IZR 0)
    by (field; lra).
  rewrite E0, E1, E2, Zfloor_half, !ZfloorZ. repeat split; reflexivity.
Qed.

Lemma rhalfs_to_pixels_anchors_witness :
  rhalfs_to_pixels 0 5 1 = Zfloor (IZR 5 / 2)
  /\ rhalfs_to_pixels 0 5 1 = (5 / 2)%Z
  /\ rhalfs_to_pixels 1 5 1 = 5%Z
  /\ rhalfs_to_pixels (- 1) 5 1 = 0%Z.
Proof. apply (rhalfs_to_pixels_anchors 5 1); [lia | lra]. Defined.

(** C9: the evaluator is continuous at both breakpoints.  The inner and the
    outer polynomial agree at [x = 1/2] (value [1/4] before normalisation) and
    the outer one is [0] at [x = 1], the value of the zero branch; so, as a
    function of [r], the evaluator is continuous at [r = h/2] and at
    [r = h]. *)
Theorem sph_kernel_breakpoints (h : R) :
  0 < h ->
  W_inner (1/2) = 1/4 /\ W_outer (1/2) = 1/4 /\ W_outer 1 = 0
  /\ sph_kernel (h / 2) h = norm2d h * (1/4)
  /\ sph_kernel h h = 0
  /\ continuity_pt (fun r => sph_kernel r h) (h / 2)
  /\ continuity_pt (fun r => sph_kernel r h) h.
Proof.
  intros Hh.
  destruct (sph_kernel_pieces h Hh) as [P1 [P2 P3]].
  pose proof W_inner_half as I.
  pose proof W_outer_half as O.
  pose proof W_outer_one as Z1.
  assert (Hhalf : (h / 2) / h = 1/2) by (field; lra).
  repeat split; try assumption.
  - rewrite P1 by lra. now rewrite Hhalf, I.
  - apply P3. lra.
  - apply (continuity_pt_glue _
             (fun r => norm2d h * W_inner (r / h))
             (fun r => norm2d h * W_outer (r / h)) (h / 2 - 1) (h / 2) h);
      try lra.
    + intros r Hr. apply P1. lra.
    + intros r Hr. apply P2. lra.
    + unfold W_inner. reg.
    + unfold W_outer. reg.
  - apply (continuity_pt_glue _
             (fun r => norm2d h * W_outer (r / h))
             (fun _ => 0) (h / 2) h (h + 1));
      try lra.
    + intros r Hr. apply P2. lra.
    + intros r Hr. apply P3. lra.
    + unfold W_outer. reg.
    + reg.
Qed.

Lemma sph_kernel_breakpoints_witness :
  W_inner (1/2) = 1/4 /\ W_outer (1/2) = 1/4 /\ W_outer 1 = 0
  /\ sph_kernel (1 / 2) 1 = norm2d 1 * (1/4)
  /\ sph_kernel 1 1 = 0
  /\ continuity_pt (fun r => sph_kernel r 1) (1 / 2)
  /\ continuity_pt (fun r => sph_kernel r 1) 1.
Proof. apply (sph_kernel_breakpoints 1); lra. Defined.

(** C10, as stated: in binary64 the evaluator is not monotone.  With [h = 1],
    at [r1 = 0.0704] and at the next double [r2] above it the rounding of
    the first branch gives [sph_kernel r1 h < sph_kernel r2 h]. *)
Lemma sph_kernel_binary64_not_monotone :
  (0 <=? 0.0704)%float = true
  /\ (0.0704 <? PrimFloat.next_up 0.0704)%float = true
  /\ Binary64.sph_kernel 0.0704 1 = 1.7686325362445348%float
  /\ Binary64.sph_kernel (PrimFloat.next_up 0.0704) 1
     = 1.768632536244535%float
  /\ (Binary64.sph_kernel 0.0704 1
      <? Binary64.sph_kernel (PrimFloat.next_up 0.0704) 1)%float = true.
Proof. repeat split; vm_compute; reflexivity. Qed.

(** C10, amended: in exact arithmetic, for a fixed [h > 0] the kernel does
    not increase with [r] on [r >= 0]; in particular its largest value is
    the one at [r = 0]. *)
Theorem sph_kernel_monotone (h r1 r2 : R) :
  0 < h -> 0 <= r1 -> r1 <= r2 ->
  sph_kernel r2 h <= sph_kernel r1 h /\ sph_kernel r1 h <= sph_kernel 0 h.
Proof.
  intros Hh H1 H12.
  assert (M : forall a b, 0 <= a -> a <= b ->
                sph_kernel b h <= sph_kernel a h).
  { intros a b Ha Hab.
    destruct (sph_kernel_W_raw a h Ha Hh) as [va [Wa Ea]].
    destruct (sph_kernel_W_raw b h ltac:(lra) Hh) as [vb [Wb Eb]].
    rewrite Ea, Eb. apply Rmult_le_compat_l.
    - left. now apply norm2d_pos.
    - apply (W_raw_decr (a / h) (b / h)); try assumption.
      now apply ratio_le. }
  split; apply M; lra.
Qed.

Lemma sph_kernel_monotone_witness :
  sph_kernel 2 3 <= sph_kernel 1 3 /\ sph_kernel 1 3 <= sph_kernel 0 3.
Proof. apply (sph_kernel_monotone 3 1 2); lra. Defined.

(** ** Arrays *)

Lemma load_in (A : list R) (n : Z) :
  (0 <= n < Z.of_nat (length A))%Z -> load A n = Some (cell A n).
Proof.
  intros Hn. unfold load, cell.
  destruct (Z.ltb_spec n 0) as [H | _]; [lia |].
  apply nth_error_nth'. lia.
Qed.

Lemma load_Some (A : list R) (n : Z) (v : R) :
  load A n = Some v -> (0 <= n < Z.of_nat (length A))%Z /\ v = cell A n.
Proof.
  unfold load, cell.
  destruct (Z.ltb_spec n 0) as [H | H]; [discriminate |].
  intros E.
  assert (Hlt : (Z.to_nat n < length A)%nat).
  { apply nth_error_Some. rewrite E. discriminate. }
  split; [lia |].
  symmetry. now apply nth_error_nth.
Qed.

Lemma upd_length (A : list R) (n : nat) (v : R) :
  length (upd A n v) = length A.
Proof.
  revert n. induction A as [| a t IH]; intros [| n]; simpl; auto.
Qed.

Lemma upd_nth (A : list R) (n m : nat) (v : R) :
  (n < length A)%nat ->
  nth m (upd A n v) 0 = if Nat.eqb m n then v else nth m A 0.
Proof.
  revert n m. induction A as [| a t IH]; intros n m Hn; simpl in Hn.
  - lia.
  - destruct n as [| n], m as [| m]; simpl; try reflexivity.
    apply IH. lia.
Qed.

Lemma store_in (A : list R) (n : Z) (v : R) :
  (0 <= n < Z.of_nat (length A))%Z ->
  store A n v = Some (upd A (Z.to_nat n) v).
Proof.
  intros Hn. unfold store.
  destruct (Z.leb_spec 0 n); [| lia].
  destruct (Z.ltb_spec n (Z.of_nat (length A))); [| lia].
  reflexivity.
Qed.

Lemma store_Some (A A' : list R) (n : Z) (v : R) :
  store A n v = Some A' ->
  (0 <= n < Z.of_nat (length A))%Z /\ A' = upd A (Z.to_nat n) v.
Proof.
  unfold store.
  destruct (Z.leb_spec 0 n); simpl; [| discriminate].
  destruct (Z.ltb_spec n (Z.of_nat (length A))); [| discriminate].
  intros E. injection E as <-. split; [lia | reflexivity].
Qed.

Lemma cell_upd (A : list R) (n m : Z) (v : R) :
  (0 <= n < Z.of_nat (length A))%Z -> (0 <= m)%Z ->
  cell (upd A (Z.to_nat n) v) m = if (n =? m)%Z then v else cell A m.
Proof.
  intros Hn Hm. unfold cell. rewrite upd_nth by lia.
  destruct (Z.eqb_spec n m) as [-> | N].
  - now rewrite Nat.eqb_refl.
  - destruct (Nat.eqb_spec (Z.to_nat m) (Z.to_nat n)); [lia | reflexivity].
Qed.

(** Two arrays of the same size with the same cells are the same array. *)
Lemma cells_ext (A B : list R) :
  length A = length B ->
  (forall m, (0 <= m < Z.of_nat (length A))%Z -> cell A m = cell B m) ->
  A = B.
Proof.
  intros Hlen Hc. apply nth_ext with (d := 0) (d' := 0); [assumption |].
  intros n Hn. specialize (Hc (Z.of_nat n) ltac:(lia)).
  unfold cell in Hc. now rewrite Nat2Z.id in Hc.
Qed.

(** ** Ranges and sums *)

Lemma zrange_In (lo hi i : Z) : In i (zrange lo hi) <-> (lo <= i < hi)%Z.
Proof.
  unfold zrange. rewrite in_map_iff. split.
  - intros [t [<- Ht]]. apply in_seq in Ht. lia.
  - intros Hi. exists (Z.to_nat (i - lo)). split; [lia |].
    apply in_seq. lia.
Qed.

Lemma zrange_empty (lo hi : Z) : (hi <= lo)%Z -> zrange lo hi = [].
Proof.
  intros H. unfold zrange.
  replace (Z.to_nat (hi - lo)) with O by lia. reflexivity.
Qed.

Lemma seq_plus (a b n : nat) :
  seq (a + b) n = map (fun t => (a + t)%nat) (seq b n).
Proof.
  revert b. induction n as [| n IH]; intros b; simpl; [reflexivity |].
  f_equal. rewrite <- IH. f_equal. lia.
Qed.

Lemma zrange_app (n1 n2 : Z) :
  (0 <= n1)%Z -> (0 <= n2)%Z ->
  zrange 0 (n1 + n2) = zrange 0 n1 ++ map (fun k => (n1 + k)%Z) (zrange 0 n2).
Proof.
  intros H1 H2. unfold zrange.
  replace (Z.to_nat (n1 + n2 - 0)) with (Z.to_nat n1 + Z.to_nat n2)%nat by lia.
  rewrite seq_app, map_app, !Z.sub_0_r. f_equal.
  rewrite Nat.add_0_l, <- (Nat.add_0_r (Z.to_nat n1)), seq_plus, !map_map.
  apply map_ext_in. intros t _. lia.
Qed.

Lemma Rsum_app (l1 l2 : list R) : Rsum (l1 ++ l2) = Rsum l1 + Rsum l2.
Proof.
  induction l1 as [| a t IH]; simpl; [| rewrite IH]; ring.
Qed.

Lemma Rsum_ext {A : Type} (f g : A -> R) (l : list A) :
  (forall a, In a l -> f a = g a) -> Rsum (map f l) = Rsum (map g l).
Proof.
  intros H. f_equal. now apply map_ext_in.
Qed.

(** ** Loops that only add *)

Lemma foldM_adds {A : Type} (L : nat)
  (body : A -> list R -> option (list R)) (amt : A -> Z -> R) (l : list A) :
  (forall a, In a l -> adds L (body a) (amt a)) ->
  adds L (foldM body l) (fun m => Rsum (map (fun a => amt a m) l)).
Proof.
  induction l as [| a t IH]; intros Hb Zf HL.
  - exists Zf. repeat split; [assumption |].
    intros m _. simpl. ring.
  - destruct (Hb a (or_introl eq_refl) Zf HL) as [Z1 [E1 [L1 C1]]].
    destruct (IH (fun b Hin => Hb b (or_intror Hin)) Z1 L1)
      as [Z2 [E2 [L2 C2]]].
    exists Z2. simpl. rewrite E1. simpl. repeat split; try assumption.
    intros m Hm. rewrite (C2 m Hm), (C1 m Hm). ring.
Qed.

(** A loop that returns ran every one of its bodies, each on an array of
    the size it started with. *)
Lemma foldM_Some {A : Type} (L : nat)
  (body : A -> list R -> option (list R)) (Q : A -> Prop) (l : list A) :
  (forall a Z1 Z2, In a l -> length Z1 = L -> body a Z1 = Some Z2 ->
     length Z2 = L /\ Q a) ->
  forall Zf Zf', length Zf = L -> foldM body l Zf = Some Zf' ->
    length Zf' = L /\ forall a, In a l -> Q a.
Proof.
  induction l as [| a t IH]; intros Hb Zf Zf' HL E; simpl in E.
  - injection E as <-. split; [assumption | intros a []].
  - destruct (body a Zf) as [Z1 |] eqn:E1; simpl in E; [| discriminate].
    destruct (Hb a Zf Z1 (or_introl eq_refl) HL E1) as [L1 Qa].
    destruct (IH (fun b U V Hin => Hb b U V (or_intror Hin)) Z1 Zf' L1 E)
      as [L2 Qt].
    split; [assumption |].
    intros b [<- | Hin]; [assumption | now apply Qt].
Qed.

(** ** The bounding box as the code computes it *)

Lemma code_h (hsml_k : R) : num_hsml * hsml_k = spec_h hsml_k.
Proof. reflexivity. Qed.

Lemma code_lower (npix : Z) (R0 c : R) :
  int_of_double (fmax (double_of_int 0)
                   (double_of_int (rhalfs_to_pixels c npix R0)))
  = Z.max 0 (index c npix R0).
Proof. now rewrite fmax_int, rhalfs_to_pixels_index. Qed.

Lemma code_upper (npix : Z) (R0 c : R) :
  int_of_double (fmin (double_of_int (npix - 1))
                   (double_of_int (rhalfs_to_pixels c npix R0)))
  = Z.min (npix - 1) (index c npix R0).
Proof. now rewrite fmin_int, rhalfs_to_pixels_index. Qed.

Lemma bbox_spec (nx ny : Z) (x0_k y0_k h R0 : R) :
  bbox nx ny x0_k y0_k h R0 =
  Box (spec_imin ny R0 y0_k h) (spec_imax ny R0 y0_k h)
      (spec_jmin nx R0 x0_k h) (spec_jmax nx R0 x0_k h).
Proof.
  unfold bbox. now rewrite !code_lower, !code_upper.
Qed.

(** [add_point] once its reads of the source arrays have succeeded. *)
Lemma add_point_loops (X Y : list R) (nx ny : Z) (x0 y0 weights hsml : list R)
  (R0 : R) (k : Z) (Zf : list R) :
  (0 <= k < Z.of_nat (length hsml))%Z ->
  (0 <= k < Z.of_nat (length y0))%Z ->
  (0 <= k < Z.of_nat (length x0))%Z ->
  add_point X Y nx ny x0 y0 weights hsml R0 k Zf =
  let h := spec_h (cell hsml k) in
  for_lt (spec_imin ny R0 (cell y0 k) h) (spec_imax ny R0 (cell y0 k) h + 1)
    (fun i =>
       for_lt (spec_jmin nx R0 (cell x0 k) h)
              (spec_jmax nx R0 (cell x0 k) h + 1)
         (fun j => add_cell X Y ny x0 y0 weights k h i j)) Zf.
Proof.
  intros Hh Hy Hx. unfold add_point.
  rewrite (load_in hsml k Hh), (load_in y0 k Hy), (load_in x0 k Hx).
  cbn [bind]. cbv zeta. rewrite bbox_spec, code_h. reflexivity.
Qed.

(** ** What [add] adds *)

Section Accumulate.

Variables (X Y : list R) (nx ny : Z) (x0 y0 weights hsml : list R) (R0 : R).
Variable L : nat.
Hypothesis X_cells : length X = L.
Hypothesis Y_cells : length Y = L.

Lemma add_cell_adds (k : Z) (h : R) (i j : Z) :
  (0 <= k < Z.of_nat (length x0))%Z ->
  (0 <= k < Z.of_nat (length y0))%Z ->
  (0 <= k < Z.of_nat (length weights))%Z ->
  (0 <= i * ny + j < Z.of_nat L)%Z ->
  adds L (add_cell X Y ny x0 y0 weights k h i j)
    (spec_contribution X Y ny (cell x0 k) (cell y0 k) (cell weights k) h i j).
Proof.
  intros Hx Hy Hw Hn Zf HL. unfold add_cell.
  rewrite (load_in X), (load_in x0), (load_in Y), (load_in y0),
    (load_in Zf), (load_in weights) by (try assumption; lia).
  cbn [bind]. rewrite store_in by lia. eexists. split; [reflexivity |].
  split; [now rewrite upd_length |].
  intros m Hm. rewrite cell_upd by lia.
  unfold spec_contribution. cbv zeta.
  destruct (Z.eqb_spec (i * ny + j) m) as [<- | N].
  - f_equal. f_equal. f_equal. f_equal. ring.
  - ring.
Qed.

Lemma add_cell_Some (k : Z) (h : R) (i j : Z) (Z1 Z2 : list R) :
  add_cell X Y ny x0 y0 weights k h i j Z1 = Some Z2 ->
  length Z2 = length Z1 /\ (0 <= i * ny + j < Z.of_nat (length Z1))%Z.
Proof.
  unfold add_cell. intros E.
  destruct (load X (i * ny + j)) as [a |]; [| discriminate].
  destruct (load x0 k) as [b |]; [| discriminate].
  destruct (load Y (i * ny + j)) as [c |]; [| discriminate].
  destruct (load y0 k) as [d |]; [| discriminate].
  destruct (load Z1 (i * ny + j)) as [e |]; [| discriminate].
  destruct (load weights k) as [w |]; [| discriminate].
  cbn [bind] in E. apply store_Some in E. destruct E as [Hn ->].
  split; [apply upd_length | assumption].
Qed.

Lemma add_point_adds (k : Z) :
  (0 <= k < Z.of_nat (length x0))%Z ->
  (0 <= k < Z.of_nat (length y0))%Z ->
  (0 <= k < Z.of_nat (length weights))%Z ->
  (0 <= k < Z.of_nat (length hsml))%Z ->
  box_in_grid L nx ny R0 (cell x0 k) (cell y0 k) (cell hsml k) ->
  adds L (add_point X Y nx ny x0 y0 weights hsml R0 k)
    (spec_deposit X Y nx ny R0
       (cell x0 k) (cell y0 k) (cell weights k) (cell hsml k)).
Proof.
  intros Hx Hy Hw Hh Hbox Zf HL.
  rewrite add_point_loops by assumption. cbv zeta.
  unfold spec_deposit, for_lt. cbv zeta.
  refine (foldM_adds L _
    (fun i m => Rsum (map (fun j => spec_contribution X Y ny (cell x0 k)
       (cell y0 k) (cell weights k) (spec_h (cell hsml k)) i j m) _))
    _ _ Zf HL).
  intros i Hi. apply zrange_In in Hi.
  apply (foldM_adds L _ (fun j m => spec_contribution X Y ny (cell x0 k)
       (cell y0 k) (cell weights k) (spec_h (cell hsml k)) i j m)).
  intros j Hj. apply zrange_In in Hj.
  apply add_cell_adds; try assumption.
  apply Hbox; lia.
Qed.

Lemma add_point_Some (k : Z) (Z1 Z2 : list R) :
  length Z1 = L ->
  add_point X Y nx ny x0 y0 weights hsml R0 k Z1 = Some Z2 ->
  length Z2 = L
  /\ (0 <= k < Z.of_nat (length hsml))%Z
  /\ (0 <= k < Z.of_nat (length y0))%Z
  /\ (0 <= k < Z.of_nat (length x0))%Z
  /\ box_in_grid L nx ny R0 (cell x0 k) (cell y0 k) (cell hsml k).
Proof.
  intros HL E.
  assert (Hh : (0 <= k < Z.of_nat (length hsml))%Z).
  { unfold add_point in E.
    destruct (load hsml k) eqn:F; [| discriminate].
    now apply load_Some in F. }
  assert (Hy : (0 <= k < Z.of_nat (length y0))%Z).
  { unfold add_point in E.
    destruct (load hsml k); [| discriminate]. cbn [bind] in E.
    destruct (load y0 k) eqn:F; [| discriminate].
    now apply load_Some in F. }
  assert (Hx : (0 <= k < Z.of_nat (length x0))%Z).
  { unfold add_point in E.
    destruct (load hsml k); [| discriminate]. cbn [bind] in E.
    destruct (load y0 k); [| discriminate]. cbn [bind] in E.
    destruct (load x0 k) eqn:F; [| discriminate].
    now apply load_Some in F. }
  rewrite add_point_loops in E by assumption. cbv zeta in E.
  unfold for_lt in E.
  set (h := spec_h (cell hsml k)) in *.
  apply (foldM_Some L _ (fun i => forall j,
           (spec_jmin nx R0 (cell x0 k) h <= j
            <= spec_jmax nx R0 (cell x0 k) h)%Z ->
           (0 <= i * ny + j < Z.of_nat L)%Z)) in E; [| | assumption].
  - destruct E as [L2 Hrows].
    refine (conj L2 (conj Hh (conj Hy (conj Hx _)))).
    unfold box_in_grid. cbv zeta. fold h. intros i j Hi Hj.
    apply Hrows; [apply zrange_In; lia | assumption].
  - intros i U V _ HU EU.
    apply (foldM_Some L _ (fun j => (0 <= i * ny + j < Z.of_nat L)%Z))
      in EU; [| | assumption].
    + destruct EU as [LV Hcols]. split; [assumption |].
      intros j Hj. apply Hcols, zrange_In. lia.
    + intros j U' V' _ HU' EU'. apply add_cell_Some in EU'.
      rewrite HU' in EU'. exact EU'.
Qed.

Lemma add_adds (npoints : Z) :
  (npoints <= Z.of_nat (length x0))%Z ->
  (npoints <= Z.of_nat (length y0))%Z ->
  (npoints <= Z.of_nat (length weights))%Z ->
  (npoints <= Z.of_nat (length hsml))%Z ->
  (forall k, (0 <= k < npoints)%Z ->
     box_in_grid L nx ny R0 (cell x0 k) (cell y0 k) (cell hsml k)) ->
  adds L (fun Zf => add X Y Zf nx ny x0 y0 weights hsml npoints R0)
    (spec_total X Y nx ny x0 y0 weights hsml npoints R0).
Proof.
  intros Hx Hy Hw Hh Hbox. unfold add, for_lt, spec_total.
  apply (foldM_adds L _ (fun k m => spec_deposit X Y nx ny R0
           (cell x0 k) (cell y0 k) (cell weights k) (cell hsml k) m)).
  intros k Hk. apply zrange_In in Hk.
  apply add_point_adds; try lia. apply Hbox. lia.
Qed.

Lemma add_Some (npoints : Z) (Z1 Z2 : list R) :
  length Z1 = L ->
  add X Y Z1 nx ny x0 y0 weights hsml npoints R0 = Some Z2 ->
  length Z2 = L
  /\ forall k, (0 <= k < npoints)%Z ->
       box_in_grid L nx ny R0 (cell x0 k) (cell y0 k) (cell hsml k).
Proof.
  intros HL E. unfold add, for_lt in E.
  apply (foldM_Some L _ (fun k =>
           box_in_grid L nx ny R0 (cell x0 k) (cell y0 k) (cell hsml k)))
    in E; [| | assumption].
  - destruct E as [L2 Hk]. split; [assumption |].
    intros k Hr. apply Hk, zrange_In. lia.
  - intros k U V _ HU EU. apply add_point_Some in EU; [| assumption].
    tauto.
Qed.

End Accumulate.

(** ** Where the box lies *)

(** On a grid at least as wide as it is high every cell of every box has its
    linear index inside the arrays. *)
Lemma box_in_grid_wide (L : nat) (nx ny : Z) (R0 x0_k y0_k hsml_k : R) :
  (1 <= ny)%Z -> (ny <= nx)%Z -> Z.of_nat L = (nx * ny)%Z ->
  box_in_grid L nx ny R0 x0_k y0_k hsml_k.
Proof.
  intros Hy Hx HL. unfold box_in_grid. cbv zeta.
  unfold spec_imin, spec_imax, spec_jmin, spec_jmax.
  intros i j Hi Hj. rewrite HL.
  assert (I : (0 <= i <= ny - 1)%Z) by lia.
  assert (J : (0 <= j <= nx - 1)%Z) by lia.
  nia.
Qed.

Lemma index_ge_npix (c : R) (npix : Z) (R0 : R) :
  (0 <= npix)%Z -> 0 < R0 -> R0 <= c -> (npix <= index c npix R0)%Z.
Proof.
  intros Hn HR Hc. unfold index. apply Zfloor_lub.
  assert (N : 0 <= IZR npix) by (apply IZR_le; lia).
  assert (E : c * IZR npix / (2 * R0) = (c / R0) * (IZR npix / 2))
    by (field; lra).
  assert (Q : 1 <= c / R0).
  { replace 1 with (R0 / R0) by (field; lra). now apply ratio_le. }
  rewrite E.
  assert (P : 0 <= (c / R0 - 1) * (IZR npix / 2))
    by (apply Rmult_le_pos; lra).
  lra.
Qed.

Lemma index_neg (c : R) (npix : Z) (R0 : R) :
  (1 <= npix)%Z -> 0 < R0 -> c < - R0 -> (index c npix R0 < 0)%Z.
Proof.
  intros Hn HR Hc. unfold index.
  assert (N : 1 <= IZR npix) by (apply IZR_le; lia).
  assert (E : c * IZR npix / (2 * R0) = (c / R0) * (IZR npix / 2))
    by (field; lra).
  assert (Q : c / R0 < -1).
  { replace (-1) with (- R0 / R0) by (field; lra).
    unfold Rdiv. apply Rmult_lt_compat_r; [now apply Rinv_0_lt_compat | lra]. }
  rewrite E.
  pose proof (Zfloor_bound (IZR npix / 2 + c / R0 * (IZR npix / 2))) as [B _].
  assert (P : 0 < (-1 - c / R0) * (IZR npix / 2))
    by (apply Rmult_lt_0_compat; lra).
  apply lt_IZR. lra.
Qed.

Lemma index_lt_npix (c : R) (npix : Z) (R0 : R) :
  (1 <= npix)%Z -> 0 < R0 -> c < R0 -> (index c npix R0 < npix)%Z.
Proof.
  intros Hn HR Hc. unfold index.
  assert (N : 1 <= IZR npix) by (apply IZR_le; lia).
  assert (E : c * IZR npix / (2 * R0) = (c / R0) * (IZR npix / 2))
    by (field; lra).
  assert (Q : c / R0 < 1).
  { replace 1 with (R0 / R0) by (field; lra).
    unfold Rdiv. apply Rmult_lt_compat_r; [now apply Rinv_0_lt_compat | lra]. }
  rewrite E.
  pose proof (Zfloor_bound (IZR npix / 2 + c / R0 * (IZR npix / 2))) as [B _].
  assert (P : 0 < (1 - c / R0) * (IZR npix / 2))
    by (apply Rmult_lt_0_compat; lra).
  apply lt_IZR. lra.
Qed.

(** The box of a source in the corner [(R0, R0)] of the domain has the last
    cell [(ny - 1, nx - 1)] of the grid. *)
Lemma corner_box (nx ny : Z) (R0 h : R) :
  (1 <= nx)%Z -> (1 <= ny)%Z -> 0 < R0 -> 0 < h ->
  (spec_imin ny R0 R0 h <= ny - 1 <= spec_imax ny R0 R0 h)%Z
  /\ (spec_jmin nx R0 R0 h <= nx - 1 <= spec_jmax nx R0 R0 h)%Z.
Proof.
  intros Hx Hy HR Hh. unfold spec_imin, spec_imax, spec_jmin, spec_jmax.
  pose proof (index_lt_npix (R0 - h) ny R0 Hy HR ltac:(lra)).
  pose proof (index_lt_npix (R0 - h) nx R0 Hx HR ltac:(lra)).
  pose proof (index_ge_npix (R0 + h) ny R0 ltac:(lia) HR ltac:(lra)).
  pose proof (index_ge_npix (R0 + h) nx R0 ltac:(lia) HR ltac:(lra)).
  lia.
Qed.

Lemma beyond_edge_empty (nx ny : Z) (R0 x0_k y0_k h : R) :
  (1 <= nx)%Z -> (1 <= ny)%Z -> 0 < R0 ->
  beyond_edge R0 x0_k y0_k h ->
  box_empty (bbox nx ny x0_k y0_k h R0).
Proof.
  intros Hx Hy HR Hb. rewrite bbox_spec. unfold box_empty.
  cbn [imin imax jmin jmax].
  unfold spec_imin, spec_imax, spec_jmin, spec_jmax.
  destruct Hb as [H | [H | [H | H]]].
  - right.
    pose proof (index_ge_npix (x0_k - h) nx R0 ltac:(lia) HR ltac:(lra)). lia.
  - right.
    pose proof (index_neg (x0_k + h) nx R0 Hx HR ltac:(lra)). lia.
  - left.
    pose proof (index_ge_npix (y0_k - h) ny R0 ltac:(lia) HR ltac:(lra)). lia.
  - left.
    pose proof (index_neg (y0_k + h) ny R0 Hy HR ltac:(lra)). lia.
Qed.

Lemma foldM_nop {A S : Type} (body : A -> S -> option S) (l : list A) (s : S) :
  (forall a, In a l -> body a s = Some s) -> foldM body l s = Some s.
Proof.
  induction l as [| a t IH]; intros H; simpl; [reflexivity |].
  rewrite (H a (or_introl eq_refl)). simpl.
  apply IH. intros b Hb. apply H. now right.
Qed.

Lemma add_point_empty (X Y : list R) (nx ny : Z) (x0 y0 weights hsml : list R)
  (R0 : R) (k : Z) (Zf : list R) :
  (0 <= k < Z.of_nat (length hsml))%Z ->
  (0 <= k < Z.of_nat (length y0))%Z ->
  (0 <= k < Z.of_nat (length x0))%Z ->
  box_empty (bbox nx ny (cell x0 k) (cell y0 k) (num_hsml * cell hsml k) R0) ->
  add_point X Y nx ny x0 y0 weights hsml R0 k Zf = Some Zf.
Proof.
  intros Hh Hy Hx He. unfold add_point.
  rewrite (load_in hsml k Hh), (load_in y0 k Hy), (load_in x0 k Hx).
  cbn [bind]. cbv zeta. unfold for_lt.
  destruct He as [He | He].
  - rewrite (zrange_empty (imin _)) by lia. reflexivity.
  - apply foldM_nop. intros i _.
    rewrite (zrange_empty (jmin _)) by lia. reflexivity.
Qed.

(** ** Concatenated source arrays, zeroed arrays, sums of arrays *)

Lemma cell_app_l (A B : list R) (k : Z) :
  (0 <= k < Z.of_nat (length A))%Z -> cell (A ++ B) k = cell A k.
Proof. intros Hk. unfold cell. apply app_nth1. lia. Qed.

Lemma cell_app_r (A B : list R) (k : Z) :
  (0 <= k)%Z -> cell (A ++ B) (Z.of_nat (length A) + k) = cell B k.
Proof.
  intros Hk. unfold cell. rewrite app_nth2 by lia. f_equal. lia.
Qed.

Lemma cell_app_from (n : nat) (A B : list R) (k : Z) :
  length A = n -> (Z.of_nat n <= k)%Z ->
  cell (A ++ B) k = cell B (k - Z.of_nat n).
Proof.
  intros <- Hk. rewrite <- (cell_app_r A B) by lia. f_equal. lia.
Qed.

Lemma zeros_length (L : nat) : length (zeros L) = L.
Proof. apply repeat_length. Qed.

Lemma cell_zeros (L : nat) (m : Z) : cell (zeros L) m = 0.
Proof.
  unfold cell, zeros.
  destruct (Nat.lt_ge_cases (Z.to_nat m) L) as [H | H].
  - apply nth_repeat_lt. assumption.
  - apply nth_overflow. now rewrite repeat_length.
Qed.

Lemma vadd_length (A B : list R) :
  length A = length B -> length (vadd A B) = length A.
Proof.
  intros H. unfold vadd. rewrite length_map, length_combine. lia.
Qed.

Lemma cell_vadd (A B : list R) (m : Z) :
  length A = length B -> (0 <= m < Z.of_nat (length A))%Z ->
  cell (vadd A B) m = cell A m + cell B m.
Proof.
  intros H Hm. unfold cell, vadd.
  rewrite (nth_indep _ 0 ((fun p => fst p + snd p) (0, 0)))
    by (rewrite length_map, length_combine; lia).
  rewrite (map_nth (fun p => fst p + snd p)), combine_nth by assumption.
  reflexivity.
Qed.

Lemma spec_total_app (X Y : list R) (nx ny : Z) (R0 : R)
  (x0a y0a wa ha x0b y0b wb hb : list R) (m : Z) :
  length x0a = length ha -> length y0a = length ha -> length wa = length ha ->
  spec_total X Y nx ny (x0a ++ x0b) (y0a ++ y0b) (wa ++ wb) (ha ++ hb)
    (Z.of_nat (length ha) + Z.of_nat (length hb)) R0 m
  = spec_total X Y nx ny x0a y0a wa ha (Z.of_nat (length ha)) R0 m
    + spec_total X Y nx ny x0b y0b wb hb (Z.of_nat (length hb)) R0 m.
Proof.
  intros Hx Hy Hw. unfold spec_total.
  rewrite zrange_app, map_app, Rsum_app, map_map by lia. f_equal.
  - apply Rsum_ext. intros k Hk. apply zrange_In in Hk.
    rewrite !cell_app_l by lia. reflexivity.
  - apply Rsum_ext. intros k Hk. apply zrange_In in Hk.
    rewrite (cell_app_from (length ha) x0a), (cell_app_from (length ha) y0a),
      (cell_app_from (length ha) wa), (cell_app_from (length ha) ha)
      by (try assumption; try reflexivity; lia).
    replace (Z.of_nat (length ha) + k - Z.of_nat (length ha))%Z with k by lia.
    reflexivity.
Qed.

(** ** Two source sequences, one after the other *)

Lemma add_concat (X Y : list R) (nx ny : Z) (R0 : R)
  (x0a y0a wa ha x0b y0b wb hb : list R) :
  length Y = length X ->
  length x0a = length ha -> length y0a = length ha -> length wa = length ha ->
  length x0b = length hb -> length y0b = length hb -> length wb = length hb ->
  (forall k, (0 <= k < Z.of_nat (length ha))%Z ->
     box_in_grid (length X) nx ny R0 (cell x0a k) (cell y0a k) (cell ha k)) ->
  (forall k, (0 <= k < Z.of_nat (length hb))%Z ->
     box_in_grid (length X) nx ny R0 (cell x0b k) (cell y0b k) (cell hb k)) ->
  exists Za Zb,
    add X Y (zeros (length X)) nx ny x0a y0a wa ha
      (Z.of_nat (length ha)) R0 = Some Za
    /\ add X Y (zeros (length X)) nx ny x0b y0b wb hb
         (Z.of_nat (length hb)) R0 = Some Zb
    /\ add X Y (zeros (length X)) nx ny
         (x0a ++ x0b) (y0a ++ y0b) (wa ++ wb) (ha ++ hb)
         (Z.of_nat (length ha) + Z.of_nat (length hb)) R0
       = Some (vadd Za Zb).
Proof.
  intros HY Hxa Hya Hwa Hxb Hyb Hwb Ba Bb.
  set (L := length X).
  destruct (add_adds X Y nx ny x0a y0a wa ha R0 L eq_refl HY
              (Z.of_nat (length ha)) ltac:(lia) ltac:(lia) ltac:(lia)
              ltac:(lia) Ba (zeros L) (zeros_length L))
    as [Za [Ea [La Ca]]].
  destruct (add_adds X Y nx ny x0b y0b wb hb R0 L eq_refl HY
              (Z.of_nat (length hb)) ltac:(lia) ltac:(lia) ltac:(lia)
              ltac:(lia) Bb (zeros L) (zeros_length L))
    as [Zb [Eb [Lb Cb]]].
  assert (Bab : forall k,
            (0 <= k < Z.of_nat (length ha) + Z.of_nat (length hb))%Z ->
            box_in_grid L nx ny R0 (cell (x0a ++ x0b) k)
              (cell (y0a ++ y0b) k) (cell (ha ++ hb) k)).
  { intros k Hk.
    destruct (Z.lt_ge_cases k (Z.of_nat (length ha))) as [Hl | Hr].
    - rewrite !cell_app_l by lia. apply Ba. lia.
    - rewrite (cell_app_from (length ha) x0a), (cell_app_from (length ha) y0a),
        (cell_app_from (length ha) ha) by (try assumption; lia).
      apply Bb. lia. }
  destruct (add_adds X Y nx ny (x0a ++ x0b) (y0a ++ y0b) (wa ++ wb)
              (ha ++ hb) R0 L eq_refl HY
              (Z.of_nat (length ha) + Z.of_nat (length hb))
              ltac:(rewrite length_app; lia) ltac:(rewrite length_app; lia)
              ltac:(rewrite length_app; lia) ltac:(rewrite length_app; lia)
              Bab (zeros L) (zeros_length L))
    as [Zab [Eab [Lab Cab]]].
  exists Za, Zb. repeat split; try assumption.
  rewrite Eab. f_equal.
  apply cells_ext.
  - rewrite vadd_length; congruence.
  - intros m Hm. rewrite Lab in Hm.
    rewrite cell_vadd by (try congruence; rewrite La; exact Hm).
    rewrite (Cab m Hm), (Ca m Hm), (Cb m Hm), cell_zeros.
    rewrite spec_total_app by assumption. ring.
Qed.

(** The same, from what the two runs returned. *)
Lemma add_concat_results (X Y : list R) (nx ny : Z) (R0 : R)
  (x0a y0a wa ha x0b y0b wb hb Za Zb : list R) :
  length Y = length X ->
  length x0a = length ha -> length y0a = length ha -> length wa = length ha ->
  length x0b = length hb -> length y0b = length hb -> length wb = length hb ->
  add X Y (zeros (length X)) nx ny x0a y0a wa ha
    (Z.of_nat (length ha)) R0 = Some Za ->
  add X Y (zeros (length X)) nx ny x0b y0b wb hb
    (Z.of_nat (length hb)) R0 = Some Zb ->
  add X Y (zeros (length X)) nx ny
    (x0a ++ x0b) (y0a ++ y0b) (wa ++ wb) (ha ++ hb)
    (Z.of_nat (length ha) + Z.of_nat (length hb)) R0
  = Some (vadd Za Zb).
Proof.
  intros HY Hxa Hya Hwa Hxb Hyb Hwb Ea Eb.
  pose proof (add_Some X Y nx ny x0a y0a wa ha R0 (length X) eq_refl HY
                _ _ _ (zeros_length _) Ea) as [_ Ba].
  pose proof (add_Some X Y nx ny x0b y0b wb hb R0 (length X) eq_refl HY
                _ _ _ (zeros_length _) Eb) as [_ Bb].
  destruct (add_concat X Y nx ny R0 x0a y0a wa ha x0b y0b wb hb
              HY Hxa Hya Hwa Hxb Hyb Hwb Ba Bb) as [Za' [Zb' [Ea' [Eb' E]]]].
  rewrite Ea in Ea'. rewrite Eb in Eb'.
  injection Ea' as <-. injection Eb' as <-. exact E.
Qed.

(** ** Grids higher than wide *)

(** On every grid higher than wide, with arrays of [nx * ny] cells, a source
    in the corner [(R0, R0)] of the domain makes [add] leave the arrays: the
    cell [(ny - 1, nx - 1)] of its box has the linear index
    [(ny - 1) * ny + nx - 1 >= nx * ny]. *)
Lemma add_tall_grid_fails (X Y Zf : list R) (nx ny : Z) (R0 w hsml_k : R) :
  (1 <= nx)%Z -> (nx < ny)%Z -> 0 < R0 -> 0 < hsml_k ->
  length X = length Zf -> length Y = length Zf ->
  Z.of_nat (length Zf) = (nx * ny)%Z ->
  add X Y Zf nx ny [R0] [R0] [w] [hsml_k] 1 R0 = None.
Proof.
  intros Hx Hy HR Hh HX HY HL.
  destruct (add X Y Zf nx ny [R0] [R0] [w] [hsml_k] 1 R0) as [Zf' |] eqn:E;
    [exfalso | reflexivity].
  apply (add_Some X Y nx ny [R0] [R0] [w] [hsml_k] R0 (length Zf) HX HY
           1 Zf Zf' eq_refl) in E.
  destruct E as [_ Hbox].
  specialize (Hbox 0%Z ltac:(lia)). unfold box_in_grid in Hbox.
  cbv zeta in Hbox. change (cell [R0] 0) with R0 in Hbox.
  change (cell [hsml_k] 0) with hsml_k in Hbox.
  assert (Hpos : 0 < spec_h hsml_k) by (unfold spec_h; lra).
  destruct (corner_box nx ny R0 (spec_h hsml_k) Hx ltac:(lia) HR Hpos)
    as [Hi Hj].
  specialize (Hbox (ny - 1)%Z (nx - 1)%Z Hi Hj). nia.
Qed.

(** ** Scenarios of the specification *)

(** The mapper at given numbers: the floor is found between two integers. *)
Ltac index_eval := unfold index, spec_h, num_hsml; apply Zfloor_eq; lra.

(** Decide the integer tests of the goal. *)
Ltac eval_tests :=
  repeat match goal with
  | |- context [Z.eqb ?a ?b] =>
      let v := eval vm_compute in (Z.eqb a b) in
      change (Z.eqb a b) with v; cbv iota
  end.

(** S6: [W(0, 1) = 40 / (7 pi)] and [W(1, 1) = 0]. *)
Example S6_kernel : sph_kernel 0 1 = 40 / (7 * pi) /\ sph_kernel 1 1 = 0.
Proof.
  split.
  - rewrite sph_kernel_inner by lra. unfold norm2d, W_inner.
    field. pose proof pi_pos. lra.
  - rewrite sph_kernel_outer by lra.
    replace (1 / 1) with 1 by lra. rewrite W_outer_one. ring.
Qed.

(** S1: the box of the central source is the 3 x 3 block around the
    centre. *)
Example S1_box : bbox 5 5 0 0 (num_hsml * 0.2) 1 = Box 1 3 1 3.
Proof.
  rewrite bbox_spec. unfold spec_imin, spec_imax, spec_jmin, spec_jmax.
  assert (A : index (0 - num_hsml * 0.2) 5 1 = 1%Z) by index_eval.
  assert (B : index (0 + num_hsml * 0.2) 5 1 = 3%Z) by index_eval.
  now rewrite A, B.
Qed.

(** S1: the central cell receives the kernel at [r = 0]. *)
Example S1_centre :
  exists Zf',
    add S1_X S1_Y (zeros 25) 5 5 [0] [0] [1] [0.2] 1 1 = Some Zf'
    /\ cell Zf' 12 = 40 / (7 * pi * 0.56^2).
Proof.
  destruct (add_adds S1_X S1_Y 5 5 [0] [0] [1] [0.2] 1 25 eq_refl eq_refl 1
              ltac:(simpl; lia) ltac:(simpl; lia) ltac:(simpl; lia)
              ltac:(simpl; lia)
              (fun k _ => box_in_grid_wide 25 5 5 1 _ _ _
                            ltac:(lia) ltac:(lia) eq_refl)
              (zeros 25) eq_refl) as [Zf' [E [_ C]]].
  exists Zf'. split; [exact E |].
  rewrite (C 12%Z ltac:(lia)), cell_zeros.
  unfold spec_total. change (zrange 0 1) with [0%Z].
  cbn [map Rsum fold_right]. unfold spec_deposit. cbv zeta.
  change (cell [0] 0) with 0. change (cell [0.2] 0) with 0.2.
  change (cell [1] 0) with 1.
  change (spec_h 0.2) with (num_hsml * 0.2).
  pose proof S1_box as Hb. rewrite bbox_spec in Hb.
  injection Hb as -> -> -> ->.
  change (zrange 1 (3 + 1)) with [1; 2; 3]%Z.
  cbn [map Rsum fold_right]. unfold spec_contribution. cbv zeta.
  eval_tests.
  change (2 * 5 + 2)%Z with 12%Z.
  change (cell S1_X 12) with 0. change (cell S1_Y 12) with 0.
  replace ((0 - 0) ^ 2 + (0 - 0) ^ 2) with 0 by ring.
  rewrite sqrt_0, sph_kernel_inner by (unfold num_hsml; lra).
  unfold norm2d, W_inner, num_hsml.
  replace (0 / (2.8 * 0.2)) with 0 by (field; lra).
  replace (2.8 * 0.2) with 0.56 by lra. field.
  pose proof pi_pos. lra.
Qed.

(** S2: a source far outside the domain leaves the zeroed output zeroed. *)
Example S2_outside :
  add S1_X S1_Y (zeros 25) 5 5 [5] [5] [1] [0.1] 1 1 = Some (zeros 25).
Proof.
  unfold add, for_lt. change (zrange 0 1) with [0%Z]. cbn [foldM].
  rewrite add_point_empty; try reflexivity; try (simpl; lia).
  apply beyond_edge_empty; try lia; try lra.
  unfold beyond_edge, num_hsml, cell. simpl. lra.
Qed.

(** S4: without sources the output is left as it was. *)
Example S4_no_sources (X Y Zf : list R) (nx ny : Z) (R0 : R) :
  add X Y Zf nx ny [] [] [] [] 0 R0 = Some Zf.
Proof. reflexivity. Qed.

(** S5: the box of a source on the left edge is clipped to the leftmost
    column. *)
Example S5_box : bbox 4 4 (-1) 0 (num_hsml * 0.1) 1 = Box 1 2 0 0.
Proof.
  rewrite bbox_spec. unfold spec_imin, spec_imax, spec_jmin, spec_jmax.
  assert (A : index (0 - num_hsml * 0.1) 4 1 = 1%Z) by index_eval.
  assert (B : index (0 + num_hsml * 0.1) 4 1 = 2%Z) by index_eval.
  assert (C : index (-1 - num_hsml * 0.1) 4 1 = (-1)%Z) by index_eval.
  assert (D : index (-1 + num_hsml * 0.1) 4 1 = 0%Z) by index_eval.
  now rewrite A, B, C, D.
Qed.

(** ** Claims about the accumulator *)




(** C2: on a grid higher than wide the clipping does not keep the linear
    index inside the arrays.  With [nx = 1] and [ny = 2] the arrays have two
    cells; the box of a source in the upper row is the single cell
    [(i, j) = (1, 0)], whose linear index [1 * ny + 0 = 2] is outside, and
    [add] fails on the read of [X[2]]. *)
Theorem add_tall_grid_out_of_bounds :
  add [0; 0] [-0.5; 0.5] [0; 0] 1 2 [0] [0.5] [1] [0.1] 1 1 = None.
Proof.
  destruct (add [0; 0] [-0.5; 0.5] [0; 0] 1 2 [0] [0.5] [1] [0.1] 1 1)
    as [Zf' |] eqn:E; [exfalso | reflexivity].
  apply (add_Some [0; 0] [-0.5; 0.5] 1 2 [0] [0.5] [1] [0.1] 1 2%nat
           eq_refl eq_refl 1 [0; 0] Zf' eq_refl) in E.
  destruct E as [_ Hbox].
  specialize (Hbox 0%Z ltac:(lia) 1%Z 0%Z). cbv zeta in Hbox.
  unfold spec_imin, spec_imax, spec_jmin, spec_jmax, cell in Hbox.
  simpl nth in Hbox.
  assert (I1 : index (0.5 - spec_h 0.1) 2 1 = 1%Z)
    by index_eval.
  assert (I2 : index (0.5 + spec_h 0.1) 2 1 = 1%Z)
    by index_eval.
  assert (J1 : index (0 - spec_h 0.1) 1 1 = 0%Z)
    by index_eval.
  assert (J2 : index (0 + spec_h 0.1) 1 1 = 0%Z)
    by index_eval.
  rewrite I1, I2, J1, J2 in Hbox. lia.
Qed.

(** A grid at least as wide as it is high is safe: [add] returns. *)
Lemma add_in_bounds_wide (X Y Zf : list R) (nx ny : Z)
  (x0 y0 weights hsml : list R) (npoints : Z) (R0 : R) :
  (1 <= ny)%Z -> (ny <= nx)%Z ->
  Z.of_nat (length Zf) = (nx * ny)%Z ->
  length X = length Zf -> length Y = length Zf ->
  (npoints <= Z.of_nat (length x0))%Z ->
  (npoints <= Z.of_nat (length y0))%Z ->
  (npoints <= Z.of_nat (length weights))%Z ->
  (npoints <= Z.of_nat (length hsml))%Z ->
  exists Zf', add X Y Zf nx ny x0 y0 weights hsml npoints R0 = Some Zf'.
Proof.
  intros Hy Hx HL HX HY H1 H2 H3 H4.
  destruct (add_adds X Y nx ny x0 y0 weights hsml R0 (length Zf) HX HY
              npoints H1 H2 H3 H4
              (fun k _ => box_in_grid_wide _ nx ny R0 _ _ _ Hy Hx HL)
              Zf eq_refl) as [Zf' [E _]].
  now exists Zf'.
Qed.

(** The bounds of the box as the source writes them: rows from [y0 -/+ h]
    against [ny], columns from [x0 -/+ h] against [nx], each clipped to its
    axis. *)
Lemma bbox_axes (nx ny : Z) (x0_k y0_k h R0 : R) :
  imin (bbox nx ny x0_k y0_k h R0)
  = Z.max 0 (Zfloor (IZR ny / 2 + (y0_k - h) * IZR ny / (2 * R0)))
  /\ imax (bbox nx ny x0_k y0_k h R0)
     = Z.min (ny - 1) (Zfloor (IZR ny / 2 + (y0_k + h) * IZR ny / (2 * R0)))
  /\ jmin (bbox nx ny x0_k y0_k h R0)
     = Z.max 0 (Zfloor (IZR nx / 2 + (x0_k - h) * IZR nx / (2 * R0)))
  /\ jmax (bbox nx ny x0_k y0_k h R0)
     = Z.min (nx - 1) (Zfloor (IZR nx / 2 + (x0_k + h) * IZR nx / (2 * R0))).
Proof.
  rewrite bbox_spec. repeat split.
Qed.

(** C4, as stated: the loop body does not take the row bounds from [x0[k]]
    and the column bounds from [y0[k]].  On the 2 x 2 grid the source at
    [(x0, y0) = (-0.5, 0.5)] with [hsml = 0.1] sits on the sample point of
    the cell [(i, j) = (1, 0)], of linear index [2]: [add_point] adds the
    kernel at [r = 0] to [Z[2]].  With the pairing of the claim the box
    would be the cell [(0, 1)], of linear index [1], and [Z[2]] would keep
    its value. *)
Lemma add_point_not_swapped :
  add_point [-0.5; 0.5; -0.5; 0.5] [-0.5; -0.5; 0.5; 0.5] 2 2
    [-0.5] [0.5] [1] [0.1] 1 0 [0; 0; 0; 0]
  <> add_point_swapped [-0.5; 0.5; -0.5; 0.5] [-0.5; -0.5; 0.5; 0.5] 2 2
       [-0.5] [0.5] [1] [0.1] 1 0 [0; 0; 0; 0].
Proof.
  set (X := [-0.5; 0.5; -0.5; 0.5]). set (Y := [-0.5; -0.5; 0.5; 0.5]).
  assert (A : index (-0.5 - spec_h 0.1) 2 1 = 0%Z) by index_eval.
  assert (B : index (-0.5 + spec_h 0.1) 2 1 = 0%Z) by index_eval.
  assert (C : index (0.5 - spec_h 0.1) 2 1 = 1%Z) by index_eval.
  assert (D : index (0.5 + spec_h 0.1) 2 1 = 1%Z) by index_eval.
  (* the source as written: the cell (1, 0), of linear index 2 *)
  rewrite add_point_loops by (simpl; lia). cbv zeta.
  unfold spec_imin, spec_imax, spec_jmin, spec_jmax.
  change (cell [0.5] 0) with 0.5. change (cell [-0.5] 0) with (-0.5).
  change (cell [0.1] 0) with 0.1. rewrite A, B, C, D.
  (* the other pairing: the cell (0, 1), of linear index 1 *)
  unfold add_point_swapped.
  change (load [0.1] 0) with (Some 0.1).
  change (load [0.5] 0) with (Some 0.5).
  change (load [-0.5] 0) with (Some (-0.5)).
  cbn [bind]. cbv zeta. unfold swapped_box. cbn [imin imax jmin jmax].
  change (num_hsml * 0.1) with (spec_h 0.1). rewrite A, B, C, D.
  unfold for_lt.
  change (zrange (Z.max 0 1) (Z.min (2 - 1) 1 + 1)) with [1%Z].
  change (zrange (Z.max 0 0) (Z.min (2 - 1) 0 + 1)) with [0%Z].
  cbn [foldM].
  destruct (add_cell_adds X Y 2 [-0.5] [0.5] [1] 4 eq_refl eq_refl 0
              (spec_h 0.1) 1 0 ltac:(simpl; lia) ltac:(simpl; lia)
              ltac:(simpl; lia) ltac:(lia) [0; 0; 0; 0] eq_refl)
    as [Z1 [E1 [_ C1]]].
  destruct (add_cell_adds X Y 2 [-0.5] [0.5] [1] 4 eq_refl eq_refl 0
              (spec_h 0.1) 0 1 ltac:(simpl; lia) ltac:(simpl; lia)
              ltac:(simpl; lia) ltac:(lia) [0; 0; 0; 0] eq_refl)
    as [Z2 [E2 [_ C2]]].
  rewrite E1, E2. cbn [bind]. intros E. injection E as ->.
  specialize (C1 2%Z ltac:(lia)). specialize (C2 2%Z ltac:(lia)).
  rewrite C2 in C1. unfold spec_contribution in C1. cbv zeta in C1.
  change ((0 * 2 + 1 =? 2)%Z) with false in C1.
  change ((1 * 2 + 0 =? 2)%Z) with true in C1. cbv iota in C1.
  change (cell X (1 * 2 + 0)) with (-0.5) in C1.
  change (cell Y (1 * 2 + 0)) with 0.5 in C1.
  change (cell [-0.5] 0) with (-0.5) in C1.
  change (cell [0.5] 0) with 0.5 in C1. change (cell [1] 0) with 1 in C1.
  replace ((-0.5 - -0.5) ^ 2 + (0.5 - 0.5) ^ 2) with 0 in C1 by ring.
  rewrite sqrt_0 in C1.
  pose proof (sph_kernel_pos_inner 0 (spec_h 0.1) ltac:(lra)
                ltac:(unfold spec_h; lra) ltac:(unfold spec_h; lra)).
  lra.
Qed.

(** C4, amended: in exact arithmetic, for every source [k] (present in the
    source arrays, with [num_rhalfs > 0] and mapped bounds that are values
    of the type [int]) the loop body runs its rows [i] from the bounds that
    the mapper gives for [y0[k] -/+ h] against [ny], clipped to
    [[0, ny - 1]], and its columns [j] from the bounds that the mapper gives
    for [x0[k] -/+ h] against [nx], clipped to [[0, nx - 1]], with
    [h = 2.8 * hsml[k]]. *)
Theorem add_point_axes (X Y : list R) (nx ny : Z)
  (x0 y0 weights hsml : list R) (R0 : R) (k : Z) (Zf : list R) :
  (0 <= k < Z.of_nat (length hsml))%Z ->
  (0 <= k < Z.of_nat (length y0))%Z ->
  (0 <= k < Z.of_nat (length x0))%Z ->
  0 < R0 ->
  box_in_int nx ny R0 (cell x0 k) (cell y0 k) (2.8 * cell hsml k) ->
  add_point X Y nx ny x0 y0 weights hsml R0 k Zf =
  let h := 2.8 * cell hsml k in
  for_lt (Z.max 0 (rhalfs_to_pixels (cell y0 k - h) ny R0))
         (Z.min (ny - 1) (rhalfs_to_pixels (cell y0 k + h) ny R0) + 1)
    (fun i =>
       for_lt (Z.max 0 (rhalfs_to_pixels (cell x0 k - h) nx R0))
              (Z.min (nx - 1) (rhalfs_to_pixels (cell x0 k + h) nx R0) + 1)
         (fun j => add_cell X Y ny x0 y0 weights k h i j)) Zf.
Proof.
  intros Hh Hy Hx _ _. rewrite add_point_loops by assumption. cbv zeta.
  unfold spec_imin, spec_imax, spec_jmin, spec_jmax, spec_h.
  now rewrite !rhalfs_to_pixels_index.
Qed.

Lemma add_point_axes_witness :
  add_point [-0.5; 0.5; -0.5; 0.5] [-0.5; -0.5; 0.5; 0.5] 2 2
    [-0.5] [0.5] [1] [0.1] 1 0 [0; 0; 0; 0] =
  let h := 2.8 * cell [0.1] 0 in
  for_lt (Z.max 0 (rhalfs_to_pixels (cell [0.5] 0 - h) 2 1))
         (Z.min (2 - 1) (rhalfs_to_pixels (cell [0.5] 0 + h) 2 1) + 1)
    (fun i =>
       for_lt (Z.max 0 (rhalfs_to_pixels (cell [-0.5] 0 - h) 2 1))
              (Z.min (2 - 1) (rhalfs_to_pixels (cell [-0.5] 0 + h) 2 1) + 1)
         (fun j => add_cell [-0.5; 0.5; -0.5; 0.5] [-0.5; -0.5; 0.5; 0.5] 2
                     [-0.5] [0.5] [1] 0 h i j)) [0; 0; 0; 0].
Proof.
  apply (add_point_axes [-0.5; 0.5; -0.5; 0.5] [-0.5; -0.5; 0.5; 0.5] 2 2
           [-0.5] [0.5] [1] [0.1] 1 0 [0; 0; 0; 0]);
    try (simpl; lia); try lra.
  in_int_eval.
Defined.





(** * Further properties of the code *)

(** ** The kernel evaluator *)

Lemma pi_neq_0 : pi <> 0.
Proof. pose proof pi_pos. lra. Qed.

Lemma norm2d_pos_nz (h : R) : h <> 0 -> 0 < norm2d h.
Proof.
  intros Hh. unfold norm2d.
  apply Rdiv_lt_0_compat; [lra |].
  apply Rmult_lt_0_compat; [pose proof pi_pos; lra |].
  simpl pow. rewrite Rmult_1_r.
  destruct (Rtotal_order h 0) as [N | [E | P]]; [nra | contradiction | nra].
Qed.

(** The value of [retval] never exceeds [1], whatever the sign of [r / h]. *)
Lemma sph_kernel_le_norm (r h : R) :
  h <> 0 -> sph_kernel r h <= norm2d h.
Proof.
  intros Hh. pose proof (norm2d_pos_nz h Hh) as HN.
  destruct (Rle_dec (r / h) (1/2)) as [H1 | H1].
  - rewrite sph_kernel_inner by assumption. unfold W_inner.
    set (x := r / h) in *.
    assert (A : 0 <= x * x * (1 - x)).
    { apply Rmult_le_pos; [nra | lra]. }
    assert (B : 1 - 6 * x ^ 2 + 6 * x ^ 3 <= 1) by (simpl pow; lra).
    nra.
  - apply Rnot_le_lt in H1.
    destruct (Rle_dec (r / h) 1) as [H2 | H2].
    + rewrite sph_kernel_outer by lra.
      assert (Hr : 1/2 <= r / h <= 1) by lra.
      pose proof (W_outer_range (r / h) Hr). nra.
    + rewrite sph_kernel_outside by lra. lra.
Qed.

Lemma sph_kernel_at_0 (h : R) : h <> 0 -> sph_kernel 0 h = norm2d h.
Proof.
  intros Hh. rewrite sph_kernel_inner.
  - unfold W_inner. replace (0 / h) with 0 by (field; assumption). ring.
  - replace (0 / h) with 0 by (field; assumption). lra.
Qed.

(** X1: the kernel scales as a 2-D density.  Scaling [r] and [h] by the same
    [s <> 0] divides the value by [s^2]; in particular the kernel is the same
    for [(- r, - h)] and for [(r, h)]. *)
Theorem sph_kernel_scaling (r h s : R) :
  s <> 0 -> h <> 0 ->
  sph_kernel (s * r) (s * h) = sph_kernel r h / s^2.
Proof.
  intros Hs Hh.
  assert (E : s * r / (s * h) = r / h) by (field; split; assumption).
  unfold sph_kernel. cbv zeta. rewrite E.
  set (retval := if Rle_dec (r / h) 0.5 then _ else _).
  whole_literals. field. pose proof pi_neq_0. repeat split; assumption.
Qed.

Lemma sph_kernel_scaling_witness :
  sph_kernel (2 * 1) (2 * 4) = sph_kernel 1 4 / 2^2.
Proof. apply (sph_kernel_scaling 1 4 2); lra. Defined.

(** X2: in exact arithmetic, for [r >= 0] and [h > 0] the kernel vanishes
    exactly from [r = h] on: it is positive strictly inside the support
    radius. *)
Theorem sph_kernel_zero_iff (r h : R) :
  0 <= r -> 0 < h -> (sph_kernel r h = 0 <-> h <= r).
Proof.
  intros Hr Hh. pose proof (norm2d_pos h Hh) as HN.
  assert (Hone : h / h = 1) by (field; lra).
  split.
  - intros E. destruct (Rle_dec h r) as [Hle | Hlt]; [assumption | exfalso].
    apply Rnot_le_lt in Hlt.
    assert (Hx : r / h < 1).
    { rewrite <- Hone. unfold Rdiv. apply Rmult_lt_compat_r; [| assumption].
      now apply Rinv_0_lt_compat. }
    pose proof (ratio_nonneg r h Hr Hh) as H0.
    destruct (Rle_dec (r / h) (1/2)) as [H1 | H1].
    + rewrite sph_kernel_inner in E by assumption.
      pose proof (W_inner_lower (r / h) (conj H0 H1)). nra.
    + apply Rnot_le_lt in H1.
      rewrite sph_kernel_outer in E by lra. unfold W_outer in E.
      set (u := 1 - r / h) in *.
      assert (Hu : 0 < u) by (unfold u; lra).
      assert (Hu3 : 0 < u * (u * u)) by (repeat apply Rmult_lt_0_compat; lra).
      simpl pow in E. nra.
  - intros Hle. now apply (sph_kernel_pieces h Hh).
Qed.

Lemma sph_kernel_zero_iff_witness : sph_kernel 2 2 = 0 <-> 2 <= 2.
Proof. apply (sph_kernel_zero_iff 2 2); lra. Defined.

(** X3: in exact arithmetic, for every [r], of either sign, and every
    [h <> 0] the kernel is at most its value at [r = 0], which is
    [40 / (7 pi h^2)]. *)
Theorem sph_kernel_peak (r h : R) :
  h <> 0 ->
  sph_kernel r h <= sph_kernel 0 h
  /\ sph_kernel 0 h = 40 / (7 * pi * h^2).
Proof.
  intros Hh. rewrite sph_kernel_at_0 by assumption.
  split; [now apply sph_kernel_le_norm | reflexivity].
Qed.

Lemma sph_kernel_peak_witness :
  sph_kernel (-3) 2 <= sph_kernel 0 2
  /\ sph_kernel 0 2 = 40 / (7 * pi * 2^2).
Proof. apply (sph_kernel_peak (-3) 2); lra. Defined.

(** X4: nothing guards against [r < 0]: there the first branch is taken,
    and in exact arithmetic, for [h > 0], the value is negative from
    [r = - h / 2] downwards. *)
Theorem sph_kernel_negative_r (r h : R) :
  0 < h -> r <= - h / 2 -> sph_kernel r h < 0.
Proof.
  intros Hh Hr. pose proof (norm2d_pos h Hh) as HN.
  assert (Hx : r / h <= - (1/2)).
  { replace (- (1/2)) with ((- h / 2) / h) by (field; lra).
    now apply ratio_le. }
  rewrite sph_kernel_inner by lra. unfold W_inner.
  set (x := r / h) in *.
  assert (A : 1/4 <= x * x) by nra.
  assert (B : 3/8 <= x * x * (1 - x)) by nra.
  assert (C : 1 - 6 * x ^ 2 + 6 * x ^ 3 <= - (5/4)) by (simpl pow; lra).
  nra.
Qed.

Lemma sph_kernel_negative_r_witness : sph_kernel (-1) 2 < 0.
Proof. apply (sph_kernel_negative_r (-1) 2); lra. Defined.

(** *** Continuity and normalisation *)

Lemma monomial_lim (c : R) (n : nat) (x : R) :
  derivable_pt_lim (fun r => c * r^n) x (c * (INR n * x^(pred n))).
Proof.
  apply (derivable_pt_lim_scal (fun y => y^n) c x), derivable_pt_lim_pow.
Qed.

Lemma quintic_lim (a2 a3 a4 a5 x : R) :
  derivable_pt_lim (quintic a2 a3 a4 a5) x (quintic' a2 a3 a4 a5 x).
Proof.
  replace (quintic' a2 a3 a4 a5 x) with
    (a2 * (INR 2 * x^(pred 2)) + a3 * (INR 3 * x^(pred 3))
     + a4 * (INR 4 * x^(pred 4)) + a5 * (INR 5 * x^(pred 5)))
    by (unfold quintic'; simpl; ring).
  unfold quintic.
  repeat apply (derivable_pt_lim_plus); apply monomial_lim.
Qed.

(** The fundamental theorem of calculus on [quintic]. *)
Lemma quintic_integral (a2 a3 a4 a5 a b : R)
  (pr : Riemann_integrable (quintic' a2 a3 a4 a5) a b) :
  RiemannInt pr = quintic a2 a3 a4 a5 b - quintic a2 a3 a4 a5 a.
Proof.
  pose (d := fun x => exist (derivable_pt_abs (quintic a2 a3 a4 a5) x)
                        (quintic' a2 a3 a4 a5 x) (quintic_lim a2 a3 a4 a5 x)
             : derivable_pt (quintic a2 a3 a4 a5) x).
  assert (C : continuity (derive (quintic a2 a3 a4 a5) d)).
  { change (continuity (quintic' a2 a3 a4 a5)). unfold quintic'. reg. }
  exact (@FTC_Riemann (@mkC1 (quintic a2 a3 a4 a5) d C) a b pr).
Qed.

Section KernelIntegral.

Variable h : R.
Hypothesis h_pos : 0 < h.

Lemma sph_kernel_continuity_pt (a : R) :
  continuity_pt (fun r => sph_kernel r h) a.
Proof.
  destruct (sph_kernel_pieces h h_pos) as [P1 [P2 P3]].
  assert (I : forall x, continuity_pt (fun r => norm2d h * W_inner (r / h)) x)
    by (intros x; unfold W_inner; reg).
  assert (O : forall x, continuity_pt (fun r => norm2d h * W_outer (r / h)) x)
    by (intros x; unfold W_outer; reg).
  assert (Z0 : forall x, continuity_pt (fun _ : R => 0) x) by (intros x; reg).
  destruct (Rtotal_order a (h / 2)) as [L1 | [E1 | G1]].
  - apply (continuity_pt_glue _ _ _ (a - 1) a (h / 2) ltac:(lra) L1
             (fun r Hr => P1 r ltac:(lra)) (fun r Hr => P1 r ltac:(lra))
             (I a) (I a)).
  - subst a.
    apply (continuity_pt_glue _ _ _ (h / 2 - 1) (h / 2) h
             ltac:(lra) ltac:(lra)
             (fun r Hr => P1 r ltac:(lra)) (fun r Hr => P2 r ltac:(lra))
             (I _) (O _)).
  - destruct (Rtotal_order a h) as [L2 | [E2 | G2]].
    + apply (continuity_pt_glue _ _ _ (h / 2) a h G1 L2
               (fun r Hr => P2 r ltac:(lra)) (fun r Hr => P2 r ltac:(lra))
               (O a) (O a)).
    + subst a.
      apply (continuity_pt_glue _ _ _ (h / 2) h (h + 1)
               ltac:(lra) ltac:(lra)
               (fun r Hr => P2 r ltac:(lra)) (fun r Hr => P3 r ltac:(lra))
               (O _) (Z0 _)).
    + apply (continuity_pt_glue _ _ _ h a (a + 1) G2 ltac:(lra)
               (fun r Hr => P3 r ltac:(lra)) (fun r Hr => P3 r ltac:(lra))
               (Z0 a) (Z0 a)).
Qed.

Lemma integrand_continuous (a : R) :
  continuity_pt (plane_integrand h) a.
Proof.
  apply (continuity_pt_mult (fun r => sph_kernel r h) (fun r => 2 * PI * r)).
  - apply sph_kernel_continuity_pt.
  - reg.
Qed.

Lemma integrand_inner (x : R) :
  0 < x < h / 2 ->
  plane_integrand h x
  = quintic' (plane_factor h / 2) 0 (- 3 * plane_factor h / (2 * h^2))
      (6 * plane_factor h / (5 * h^3)) x.
Proof.
  intros Hx. unfold plane_integrand, plane_factor, quintic'.
  rewrite (proj1 (sph_kernel_pieces h h_pos)) by lra.
  unfold W_inner. field. lra.
Qed.

Lemma integrand_outer (x : R) :
  h / 2 < x < h ->
  plane_integrand h x
  = quintic' (plane_factor h) (- 2 * plane_factor h / h)
      (3 * plane_factor h / (2 * h^2)) (- 2 * plane_factor h / (5 * h^3)) x.
Proof.
  intros Hx. unfold plane_integrand, plane_factor, quintic'.
  rewrite (proj1 (proj2 (sph_kernel_pieces h h_pos))) by lra.
  unfold W_outer. field. lra.
Qed.

Lemma integral_value :
  exists pr : Riemann_integrable (plane_integrand h) 0 h,
    RiemannInt pr = PI / pi.
Proof.
  assert (I : forall a b, a <= b ->
                Riemann_integrable (plane_integrand h) a b).
  { intros a b Hab. apply continuity_implies_RiemannInt; [assumption |].
    intros x _. apply integrand_continuous. }
  assert (Q : forall a2 a3 a4 a5 a b, a <= b ->
                Riemann_integrable (quintic' a2 a3 a4 a5) a b).
  { intros a2 a3 a4 a5 a b Hab.
    apply continuity_implies_RiemannInt; [assumption |].
    intros x _. unfold quintic'. reg. }
  pose (pr1 := I 0 (h / 2) ltac:(lra)).
  pose (pr2 := I (h / 2) h ltac:(lra)).
  pose (pr3 := I 0 h ltac:(lra)).
  exists pr3. rewrite <- (RiemannInt_P26 pr1 pr2 pr3).
  rewrite (RiemannInt_P18 pr1 (Q _ _ _ _ 0 (h / 2) ltac:(lra)) ltac:(lra)
             integrand_inner).
  rewrite (RiemannInt_P18 pr2 (Q _ _ _ _ (h / 2) h ltac:(lra)) ltac:(lra)
             integrand_outer).
  rewrite !quintic_integral. unfold quintic, plane_factor, norm2d.
  field. pose proof pi_neq_0. split; [assumption | lra].
Qed.

End KernelIntegral.

Lemma PI_over_pi : Rabs (PI / pi - 1) < 1 / 10^15.
Proof.
  pose proof pi_near_PI as N. pose proof pi_pos as P.
  assert (P3 : 3 < pi) by (unfold pi; lra).
  replace (PI / pi - 1) with ((PI - pi) * / pi) by (field; lra).
  rewrite Rabs_mult, (Rabs_pos_eq (/ pi))
    by (left; now apply Rinv_0_lt_compat).
  rewrite Rabs_minus_sym.
  assert (I1 : / pi < 1).
  { rewrite <- Rinv_1. apply Rinv_lt_contravar; lra. }
  assert (I0 : 0 < / pi) by now apply Rinv_0_lt_compat.
  pose proof (Rabs_pos (pi - PI)) as A.
  nra.
Qed.

(** X5: for [h > 0] the kernel is a continuous function of [r] on the whole
    line, negative [r] included. *)
Theorem sph_kernel_continuous (h : R) :
  0 < h -> continuity (fun r => sph_kernel r h).
Proof.
  intros Hh a. now apply sph_kernel_continuity_pt.
Qed.

Lemma sph_kernel_continuous_witness : continuity (fun r => sph_kernel r 2).
Proof. apply (sph_kernel_continuous 2). lra. Defined.

(** X6: the kernel is normalised over the plane.  For [h > 0] the integral
    of [sph_kernel r h * 2 PI r] over [0 <= r <= h] is [PI / pi], the ratio
    of the number pi to the constant [pi] of the source, which is [1] to
    within [10^-15]. *)
Theorem sph_kernel_normalised (h : R) :
  0 < h ->
  exists pr : Riemann_integrable (fun r => sph_kernel r h * (2 * PI * r)) 0 h,
    RiemannInt pr = PI / pi /\ Rabs (PI / pi - 1) < 1 / 10^15.
Proof.
  intros Hh. destruct (integral_value h Hh) as [pr E].
  exists pr. split; [exact E | exact PI_over_pi].
Qed.

Lemma sph_kernel_normalised_witness :
  exists pr : Riemann_integrable (fun r => sph_kernel r 2 * (2 * PI * r)) 0 2,
    RiemannInt pr = PI / pi /\ Rabs (PI / pi - 1) < 1 / 10^15.
Proof. apply (sph_kernel_normalised 2). lra. Defined.

(** ** The coordinate mapper *)

(** The argument of [floor] in the mapper is the distance from the left edge
    [- R0] counted in pixel widths [2 R0 / npix]. *)
Lemma index_arg (r : R) (npix : Z) (R0 : R) :
  (1 <= npix)%Z -> 0 < R0 ->
  IZR npix / 2 + r * IZR npix / (2 * R0) = (r + R0) / (2 * R0 / IZR npix).
Proof.
  intros Hn HR. assert (N : 1 <= IZR npix) by (apply IZR_le; lia).
  field. lra.
Qed.

Lemma pixel_width_pos (npix : Z) (R0 : R) :
  (1 <= npix)%Z -> 0 < R0 -> 0 < 2 * R0 / IZR npix.
Proof.
  intros Hn HR. assert (N : 1 <= IZR npix) by (apply IZR_le; lia).
  apply Rdiv_lt_0_compat; lra.
Qed.

Lemma index_le (r1 r2 : R) (npix : Z) (R0 : R) :
  (0 <= npix)%Z -> 0 < R0 -> r1 <= r2 ->
  (index r1 npix R0 <= index r2 npix R0)%Z.
Proof.
  intros Hn HR Hr. unfold index. apply Zfloor_le.
  assert (N : 0 <= IZR npix) by (apply IZR_le; lia).
  assert (P : 0 <= / (2 * R0)) by (left; apply Rinv_0_lt_compat; lra).
  unfold Rdiv. apply Rplus_le_compat_l.
  apply Rmult_le_compat_r; [assumption |].
  now apply Rmult_le_compat_r.
Qed.

Lemma index_eq_iff (r : R) (npix : Z) (R0 : R) (i : Z) :
  (1 <= npix)%Z -> 0 < R0 ->
  (index r npix R0 = i <->
   - R0 + IZR i * (2 * R0 / IZR npix) <= r
   < - R0 + (IZR i + 1) * (2 * R0 / IZR npix)).
Proof.
  intros Hn HR. unfold index. rewrite index_arg by assumption.
  pose proof (pixel_width_pos npix R0 Hn HR) as Hw.
  set (w := 2 * R0 / IZR npix) in *.
  assert (E : (r + R0) / w * w = r + R0) by (field; lra).
  set (a := (r + R0) / w) in *.
  split.
  - intros <-. pose proof (Zfloor_bound a) as [B1 B2]. split; nra.
  - intros [B1 B2]. apply Zfloor_eq. split.
    + apply Rmult_le_reg_r with w; [assumption | lra].
    + apply Rmult_lt_reg_r with w; [assumption | lra].
Qed.

Lemma index_nonneg (r : R) (npix : Z) (R0 : R) :
  (0 <= npix)%Z -> 0 < R0 -> - R0 <= r -> (0 <= index r npix R0)%Z.
Proof.
  intros Hn HR Hr. unfold index. apply Zfloor_lub.
  assert (N : 0 <= IZR npix) by (apply IZR_le; lia).
  assert (E : r * IZR npix / (2 * R0) = (r / R0) * (IZR npix / 2))
    by (field; lra).
  assert (Q : -1 <= r / R0).
  { replace (-1) with (- R0 / R0) by (field; lra). now apply ratio_le. }
  rewrite E.
  assert (P : 0 <= (r / R0 + 1) * (IZR npix / 2))
    by (apply Rmult_le_pos; lra).
  lra.
Qed.

(** X7: in exact arithmetic, and between coordinates whose indices are
    values of the type [int], the mapper is monotone: a larger coordinate
    never gets a smaller pixel index. *)
Theorem rhalfs_to_pixels_monotone (r1 r2 : R) (npix : Z) (R0 : R) :
  (0 <= npix)%Z -> 0 < R0 -> r1 <= r2 ->
  int_range (rhalfs_to_pixels r1 npix R0) ->
  int_range (rhalfs_to_pixels r2 npix R0) ->
  (rhalfs_to_pixels r1 npix R0 <= rhalfs_to_pixels r2 npix R0)%Z.
Proof.
  intros Hn HR Hr _ _. rewrite !rhalfs_to_pixels_index. now apply index_le.
Qed.

Lemma rhalfs_to_pixels_monotone_witness :
  (rhalfs_to_pixels (-0.3) 5 1 <= rhalfs_to_pixels 0.7 5 1)%Z.
Proof.
  apply (rhalfs_to_pixels_monotone (-0.3) 0.7 5 1);
    [lia | lra | lra | |]; apply rhalfs_to_pixels_in_int; try lra; lia.
Defined.

(** X8: in exact arithmetic the pixel [i] is the half-open interval of width
    [2 R0 / npix] that starts [i] widths right of the left edge [- R0]:
    for a coordinate whose index is a value of the type [int], the mapper
    returns [i] exactly when the coordinate lies in that interval. *)
Theorem rhalfs_to_pixels_pixel (r : R) (npix : Z) (R0 : R) (i : Z) :
  (1 <= npix)%Z -> 0 < R0 ->
  int_range (rhalfs_to_pixels r npix R0) ->
  (rhalfs_to_pixels r npix R0 = i <->
   - R0 + IZR i * (2 * R0 / IZR npix) <= r
   < - R0 + (IZR i + 1) * (2 * R0 / IZR npix)).
Proof.
  intros Hn HR _. rewrite rhalfs_to_pixels_index. now apply index_eq_iff.
Qed.

Lemma rhalfs_to_pixels_pixel_witness :
  rhalfs_to_pixels 0.3 4 1 = 2%Z <->
  - 1 + IZR 2 * (2 * 1 / IZR 4) <= 0.3 < - 1 + (IZR 2 + 1) * (2 * 1 / IZR 4).
Proof.
  apply (rhalfs_to_pixels_pixel 0.3 4 1 2); [lia | lra |].
  apply rhalfs_to_pixels_in_int; try lra; lia.
Defined.

(** X9: in exact arithmetic the mapper returns an index of the grid,
    [0 <= index < npix], exactly for the coordinates of the half-open domain
    [- R0 <= r < R0]. *)
Theorem rhalfs_to_pixels_in_grid (r : R) (npix : Z) (R0 : R) :
  (1 <= npix)%Z -> 0 < R0 ->
  ((0 <= rhalfs_to_pixels r npix R0 < npix)%Z <-> - R0 <= r < R0).
Proof.
  intros Hn HR. rewrite rhalfs_to_pixels_index. split.
  - intros [H0 H1]. split.
    + destruct (Rle_dec (- R0) r) as [H | H]; [assumption | exfalso].
      apply Rnot_le_lt in H.
      pose proof (index_neg r npix R0 Hn HR H). lia.
    + destruct (Rlt_dec r R0) as [H | H]; [assumption | exfalso].
      apply Rnot_lt_le in H.
      pose proof (index_ge_npix r npix R0 ltac:(lia) HR H). lia.
  - intros [H0 H1]. split.
    + apply index_nonneg; [lia | assumption | assumption].
    + now apply index_lt_npix.
Qed.

Lemma rhalfs_to_pixels_in_grid_witness :
  (0 <= rhalfs_to_pixels 0.3 4 1 < 4)%Z <-> - 1 <= 0.3 < 1.
Proof. apply (rhalfs_to_pixels_in_grid 0.3 4 1); [lia | lra]. Defined.

(** X10: in exact arithmetic, moving a coordinate by [k] pixel widths moves
    its index by [k], as long as the index before and the index after are
    values of the type [int]. *)
Theorem rhalfs_to_pixels_shift (r : R) (npix : Z) (R0 : R) (k : Z) :
  (1 <= npix)%Z -> 0 < R0 ->
  int_range (rhalfs_to_pixels r npix R0) ->
  int_range (rhalfs_to_pixels (r + IZR k * (2 * R0 / IZR npix)) npix R0) ->
  rhalfs_to_pixels (r + IZR k * (2 * R0 / IZR npix)) npix R0
  = (rhalfs_to_pixels r npix R0 + k)%Z.
Proof.
  intros Hn HR _ _. rewrite !rhalfs_to_pixels_index. unfold index.
  assert (N : 1 <= IZR npix) by (apply IZR_le; lia).
  rewrite <- Zfloor_addz. f_equal. field. lra.
Qed.

Lemma rhalfs_to_pixels_shift_witness :
  rhalfs_to_pixels (0.3 + IZR 3 * (2 * 1 / IZR 4)) 4 1
  = (rhalfs_to_pixels 0.3 4 1 + 3)%Z.
Proof.
  apply (rhalfs_to_pixels_shift 0.3 4 1 3); [lia | lra | |];
    apply rhalfs_to_pixels_in_int; try lra; lia.
Defined.

(** X11: in exact arithmetic the mapper depends on the coordinate only
    through its ratio to the half-width: scaling both by the same [s <> 0]
    leaves the index as it is. *)
Theorem rhalfs_to_pixels_scale (r : R) (npix : Z) (R0 s : R) :
  s <> 0 -> R0 <> 0 ->
  rhalfs_to_pixels (s * r) npix (s * R0) = rhalfs_to_pixels r npix R0.
Proof.
  intros Hs HR. rewrite !rhalfs_to_pixels_index. unfold index.
  f_equal. field. split; assumption.
Qed.

Lemma rhalfs_to_pixels_scale_witness :
  rhalfs_to_pixels (3 * 0.3) 4 (3 * 1) = rhalfs_to_pixels 0.3 4 1.
Proof. apply (rhalfs_to_pixels_scale 0.3 4 1 3); lra. Defined.

(** ** The bounding box *)

Lemma in_box_spec (nx ny : Z) (x0_k y0_k h R0 : R) (i j : Z) :
  in_box (bbox nx ny x0_k y0_k h R0) i j <->
  (spec_imin ny R0 y0_k h <= i <= spec_imax ny R0 y0_k h)%Z
  /\ (spec_jmin nx R0 x0_k h <= j <= spec_jmax nx R0 x0_k h)%Z.
Proof. rewrite bbox_spec. reflexivity. Qed.

Lemma in_box_on_grid (nx ny : Z) (x0_k y0_k h R0 : R) (i j : Z) :
  in_box (bbox nx ny x0_k y0_k h R0) i j ->
  (0 <= i < ny)%Z /\ (0 <= j < nx)%Z.
Proof.
  rewrite in_box_spec.
  unfold spec_imin, spec_imax, spec_jmin, spec_jmax. lia.
Qed.

(** X12: the clipping keeps every cell of the box on the grid:
    [0 <= i < ny] and [0 <= j < nx], whatever the source and the half-width
    are. *)
Theorem bbox_clipped (nx ny : Z) (x0_k y0_k h R0 : R) (i j : Z) :
  in_box (bbox nx ny x0_k y0_k h R0) i j ->
  (0 <= i < ny)%Z /\ (0 <= j < nx)%Z.
Proof. apply in_box_on_grid. Qed.

Lemma bbox_clipped_witness : (0 <= 2 < 5)%Z /\ (0 <= 3 < 5)%Z.
Proof.
  apply (bbox_clipped 5 5 0 0 (num_hsml * 0.2) 1 2 3).
  rewrite in_box_spec.
  unfold spec_imin, spec_imax, spec_jmin, spec_jmax.
  replace (index (0 - num_hsml * 0.2) 5 1) with 1%Z
    by (symmetry; index_eval).
  replace (index (0 + num_hsml * 0.2) 5 1) with 3%Z
    by (symmetry; index_eval).
  lia.
Defined.

(** X13: in exact arithmetic, and for a source whose mapped bounds are
    values of the type [int], the box skips no pixel that the support can
    reach.  For a point [(x, y)] of the domain within [h] of the source
    along both axes, the pixel of the point, row from [y] and column from
    [x], is a cell of the box; for [h >= 0] this holds for the source
    position itself. *)
Theorem bbox_covers_support (nx ny : Z) (x0_k y0_k h R0 x y : R) :
  (1 <= nx)%Z -> (1 <= ny)%Z -> 0 < R0 ->
  box_in_int nx ny R0 x0_k y0_k h ->
  - R0 <= x < R0 -> - R0 <= y < R0 ->
  x0_k - h <= x <= x0_k + h -> y0_k - h <= y <= y0_k + h ->
  in_box (bbox nx ny x0_k y0_k h R0)
    (rhalfs_to_pixels y ny R0) (rhalfs_to_pixels x nx R0).
Proof.
  intros Hnx Hny HR _ Hx Hy Hxh Hyh.
  rewrite in_box_spec, !rhalfs_to_pixels_index.
  unfold spec_imin, spec_imax, spec_jmin, spec_jmax.
  pose proof (index_le (y0_k - h) y ny R0 ltac:(lia) HR ltac:(lra)).
  pose proof (index_le y (y0_k + h) ny R0 ltac:(lia) HR ltac:(lra)).
  pose proof (index_le (x0_k - h) x nx R0 ltac:(lia) HR ltac:(lra)).
  pose proof (index_le x (x0_k + h) nx R0 ltac:(lia) HR ltac:(lra)).
  pose proof (index_nonneg y ny R0 ltac:(lia) HR ltac:(lra)).
  pose proof (index_nonneg x nx R0 ltac:(lia) HR ltac:(lra)).
  pose proof (index_lt_npix y ny R0 Hny HR ltac:(lra)).
  pose proof (index_lt_npix x nx R0 Hnx HR ltac:(lra)).
  lia.
Qed.

Lemma bbox_covers_support_witness :
  in_box (bbox 4 4 (-1) 0 0.28 1)
    (rhalfs_to_pixels 0.2 4 1) (rhalfs_to_pixels (-0.9) 4 1).
Proof.
  apply (bbox_covers_support 4 4 (-1) 0 0.28 1 (-0.9) 0.2);
    try lia; try lra.
  in_int_eval.
Defined.

(** X14: in exact arithmetic, and with mapped bounds that are values of the
    type [int], a larger half-width never loses a cell: the box for [h1]
    is inside the box for every [h2 >= h1]. *)
Theorem bbox_grows (nx ny : Z) (x0_k y0_k h1 h2 R0 : R) (i j : Z) :
  (0 <= nx)%Z -> (0 <= ny)%Z -> 0 < R0 -> h1 <= h2 ->
  box_in_int nx ny R0 x0_k y0_k h1 ->
  box_in_int nx ny R0 x0_k y0_k h2 ->
  in_box (bbox nx ny x0_k y0_k h1 R0) i j ->
  in_box (bbox nx ny x0_k y0_k h2 R0) i j.
Proof.
  intros Hnx Hny HR Hh _ _. rewrite !in_box_spec.
  unfold spec_imin, spec_imax, spec_jmin, spec_jmax.
  pose proof (index_le (y0_k - h2) (y0_k - h1) ny R0 Hny HR ltac:(lra)).
  pose proof (index_le (y0_k + h1) (y0_k + h2) ny R0 Hny HR ltac:(lra)).
  pose proof (index_le (x0_k - h2) (x0_k - h1) nx R0 Hnx HR ltac:(lra)).
  pose proof (index_le (x0_k + h1) (x0_k + h2) nx R0 Hnx HR ltac:(lra)).
  lia.
Qed.

Lemma bbox_grows_witness : in_box (bbox 5 5 0 0 1 1) 2 3.
Proof.
  apply (bbox_grows 5 5 0 0 (num_hsml * 0.2) 1 1 2 3);
    [lia | lia | lra | unfold num_hsml; lra
     | in_int_eval | in_int_eval |].
  rewrite in_box_spec.
  unfold spec_imin, spec_imax, spec_jmin, spec_jmax.
  replace (index (0 - num_hsml * 0.2) 5 1) with 1%Z
    by (symmetry; index_eval).
  replace (index (0 + num_hsml * 0.2) 5 1) with 3%Z
    by (symmetry; index_eval).
  lia.
Defined.

(** ** The accumulator *)

(** *** Loops and arrays, continued *)

Lemma foldM_app {A S : Type} (body : A -> S -> option S) (l1 l2 : list A)
  (s : S) :
  foldM body (l1 ++ l2) s = s' <- foldM body l1 s ;; foldM body l2 s'.
Proof.
  revert s. induction l1 as [| a t IH]; intros s; simpl; [reflexivity |].
  destruct (body a s) as [s1 |]; simpl; [apply IH | reflexivity].
Qed.

Lemma foldM_map {A B S : Type} (f : A -> B) (body : B -> S -> option S)
  (l : list A) (s : S) :
  foldM body (map f l) s = foldM (fun a => body (f a)) l s.
Proof.
  revert s. induction l as [| a t IH]; intros s; simpl; [reflexivity |].
  destruct (body (f a) s) as [s1 |]; simpl; [apply IH | reflexivity].
Qed.

Lemma foldM_ext {A S : Type} (body1 body2 : A -> S -> option S) (l : list A)
  (s : S) :
  (forall a s', In a l -> body1 a s' = body2 a s') ->
  foldM body1 l s = foldM body2 l s.
Proof.
  revert s. induction l as [| a t IH]; intros s H; simpl; [reflexivity |].
  rewrite (H a s (or_introl eq_refl)).
  destruct (body2 a s) as [s1 |]; simpl; [| reflexivity].
  apply IH. intros b s' Hb. apply H. now right.
Qed.

Lemma load_app_l (A B : list R) (k : Z) :
  (0 <= k < Z.of_nat (length A))%Z -> load (A ++ B) k = load A k.
Proof.
  intros Hk. unfold load. destruct (Z.ltb_spec k 0); [reflexivity |].
  apply nth_error_app1. lia.
Qed.

Lemma load_app_from (n : nat) (A B : list R) (k : Z) :
  length A = n -> (0 <= k)%Z -> load (A ++ B) (Z.of_nat n + k) = load B k.
Proof.
  intros <- Hk. unfold load.
  destruct (Z.ltb_spec (Z.of_nat (length A) + k) 0); [lia |].
  destruct (Z.ltb_spec k 0); [lia |].
  rewrite nth_error_app2 by lia. f_equal. lia.
Qed.

(** A source is read from its own entries only: entries appended to the
    source arrays do not change what [add_point] does for it. *)
Lemma add_point_app_l (X Y : list R) (nx ny : Z)
  (x0a y0a wa ha x0b y0b wb hb : list R) (R0 : R) (k : Z) (Zf : list R) :
  length x0a = length ha -> length y0a = length ha -> length wa = length ha ->
  (0 <= k < Z.of_nat (length ha))%Z ->
  add_point X Y nx ny (x0a ++ x0b) (y0a ++ y0b) (wa ++ wb) (ha ++ hb) R0 k Zf
  = add_point X Y nx ny x0a y0a wa ha R0 k Zf.
Proof.
  intros Hx Hy Hw Hk. unfold add_point, add_cell.
  rewrite (load_app_l ha), (load_app_l x0a), (load_app_l y0a),
    (load_app_l wa) by lia.
  reflexivity.
Qed.

Lemma add_point_app_r (X Y : list R) (nx ny : Z)
  (x0a y0a wa ha x0b y0b wb hb : list R) (R0 : R) (k : Z) (Zf : list R) :
  length x0a = length ha -> length y0a = length ha -> length wa = length ha ->
  (0 <= k)%Z ->
  add_point X Y nx ny (x0a ++ x0b) (y0a ++ y0b) (wa ++ wb) (ha ++ hb) R0
    (Z.of_nat (length ha) + k) Zf
  = add_point X Y nx ny x0b y0b wb hb R0 k Zf.
Proof.
  intros Hx Hy Hw Hk. unfold add_point, add_cell.
  rewrite (load_app_from (length ha) ha), (load_app_from (length ha) x0a),
    (load_app_from (length ha) y0a), (load_app_from (length ha) wa)
    by (try assumption; try reflexivity; lia).
  reflexivity.
Qed.


(** X15: running [add] on two batches of sources one after the other, the
    second run on the output of the first, is the same as one run on the
    concatenated source arrays, failures included. *)
Theorem add_sequential (X Y Zf : list R) (nx ny : Z)
  (x0a y0a wa ha x0b y0b wb hb : list R) (nb : Z) (R0 : R) :
  length x0a = length ha -> length y0a = length ha -> length wa = length ha ->
  (0 <= nb)%Z ->
  add X Y Zf nx ny (x0a ++ x0b) (y0a ++ y0b) (wa ++ wb) (ha ++ hb)
    (Z.of_nat (length ha) + nb) R0
  = (Z1 <- add X Y Zf nx ny x0a y0a wa ha (Z.of_nat (length ha)) R0 ;;
     add X Y Z1 nx ny x0b y0b wb hb nb R0).
Proof.
  intros Hx Hy Hw Hnb. unfold add, for_lt.
  rewrite zrange_app, foldM_app by lia.
  rewrite (foldM_ext _ (add_point X Y nx ny x0a y0a wa ha R0)
             (zrange 0 (Z.of_nat (length ha)))).
  - destruct (foldM _ (zrange 0 (Z.of_nat (length ha))) Zf) as [Z1 |];
      simpl; [| reflexivity].
    rewrite foldM_map. apply foldM_ext.
    intros k s Hk. apply zrange_In in Hk.
    apply add_point_app_r; try assumption. lia.
  - intros k s Hk. apply zrange_In in Hk.
    apply add_point_app_l; assumption.
Qed.

Lemma add_sequential_witness :
  add [-0.5; 0.5; -0.5; 0.5] [-0.5; -0.5; 0.5; 0.5] [0; 0; 0; 0] 2 2
    ([0] ++ [0.25; -1]) ([0] ++ [0.5; 0]) ([1] ++ [2; -3])
    ([0.2] ++ [0.1; 0.3]) (Z.of_nat (length [0.2]) + 2) 1
  = (Z1 <- add [-0.5; 0.5; -0.5; 0.5] [-0.5; -0.5; 0.5; 0.5] [0; 0; 0; 0]
             2 2 [0] [0] [1] [0.2] (Z.of_nat (length [0.2])) 1 ;;
     add [-0.5; 0.5; -0.5; 0.5] [-0.5; -0.5; 0.5; 0.5] Z1 2 2
       [0.25; -1] [0.5; 0] [2; -3] [0.1; 0.3] 2 1).
Proof.
  apply (add_sequential [-0.5; 0.5; -0.5; 0.5] [-0.5; -0.5; 0.5; 0.5]
           [0; 0; 0; 0] 2 2 [0] [0] [1] [0.2] [0.25; -1] [0.5; 0] [2; -3]
           [0.1; 0.3] 2 1); try reflexivity.
  lia.
Defined.



(** *** Sums *)










(** *** What one source adds *)












(** *** Weights *)







(** *** Which cells change, and how *)







(** *** Square and wide grids *)











(** *** Source arrays shorter than [npoints] *)

Lemma foldM_None {A S : Type} (body : A -> S -> option S) (l : list A)
  (a : A) (s : S) :
  In a l -> (forall s', body a s' = None) -> foldM body l s = None.
Proof.
  revert s. induction l as [| b t IH]; intros s Hin H; [destruct Hin |].
  simpl. destruct Hin as [-> | Hin].
  - now rewrite H.
  - destruct (body b s) as [s1 |]; simpl; [now apply IH | reflexivity].
Qed.

Lemma load_beyond (A : list R) (k : Z) :
  (Z.of_nat (length A) <= k)%Z -> load A k = None.
Proof.
  intros Hk. unfold load. destruct (Z.ltb_spec k 0); [reflexivity |].
  apply nth_error_None. lia.
Qed.

(** X25: [npoints] must not exceed the source arrays.  When [hsml], [y0] or
    [x0] has fewer than [npoints] entries, [add] reads past its end and
    fails, whatever the other inputs are. *)
Theorem add_short_sources (X Y Zf : list R) (nx ny : Z)
  (x0 y0 weights hsml : list R) (npoints : Z) (R0 : R) :
  (Z.of_nat (length hsml) < npoints)%Z
  \/ (Z.of_nat (length y0) < npoints)%Z
  \/ (Z.of_nat (length x0) < npoints)%Z ->
  add X Y Zf nx ny x0 y0 weights hsml npoints R0 = None.
Proof.
  intros H. unfold add, for_lt.
  destruct H as [H | [H | H]].
  - apply (foldM_None _ _ (Z.of_nat (length hsml)));
      [apply zrange_In; lia |].
    intros s. unfold add_point. now rewrite load_beyond by lia.
  - apply (foldM_None _ _ (Z.of_nat (length y0)));
      [apply zrange_In; lia |].
    intros s. unfold add_point.
    destruct (load hsml (Z.of_nat (length y0))); [| reflexivity].
    cbn [bind]. now rewrite load_beyond by lia.
  - apply (foldM_None _ _ (Z.of_nat (length x0)));
      [apply zrange_In; lia |].
    intros s. unfold add_point.
    destruct (load hsml (Z.of_nat (length x0))); [| reflexivity].
    cbn [bind].
    destruct (load y0 (Z.of_nat (length x0))); [| reflexivity].
    cbn [bind]. now rewrite load_beyond by lia.
Qed.

Lemma add_short_sources_witness :
  add [0] [0] [0] 1 1 [0] [0] [1] [0.1] 2 1 = None.
Proof.
  apply (add_short_sources [0] [0] [0] 1 1 [0] [0] [1] [0.1] 2 1).
  left. simpl. lia.
Defined.

(** ** The mapper and the pixels, continued *)

(** X26: in exact arithmetic every point inside the pixel [i], its centre
    among them, is mapped back to [i], for every [i] that is a value of the
    type [int]: for [0 <= t < 1] the coordinate [t] pixel widths right of
    the left edge of the pixel has index [i]. *)
Theorem rhalfs_to_pixels_round_trip (npix : Z) (R0 t : R) (i : Z) :
  (1 <= npix)%Z -> 0 < R0 -> 0 <= t < 1 -> int_range i ->
  rhalfs_to_pixels (- R0 + (IZR i + t) * (2 * R0 / IZR npix)) npix R0 = i.
Proof.
  intros Hn HR Ht _. rewrite rhalfs_to_pixels_index.
  apply index_eq_iff; [assumption | assumption |].
  pose proof (pixel_width_pos npix R0 Hn HR) as Hw.
  set (w := 2 * R0 / IZR npix) in *. split; nra.
Qed.

Lemma rhalfs_to_pixels_round_trip_witness :
  rhalfs_to_pixels (- 1 + (IZR 3 + 1/2) * (2 * 1 / IZR 4)) 4 1 = 3%Z.
Proof.
  apply (rhalfs_to_pixels_round_trip 4 1 (1/2) 3); [lia | lra | lra |].
  unfold int_range, INT_MIN, INT_MAX. lia.
Defined.

(** * The two embeddings side by side *)

(** Inputs at which the code in binary64 and the code in exact arithmetic
    give different results, each outside what the statements in exact
    arithmetic assume; and a grid higher than wide, on which they agree. *)

(** The left edge of the domain: with [npix = 3] and [num_rhalfs = 0.1] the
    product [r*npix] is rounded to [-0.30000000000000004], the argument of
    [floor] is just below zero and the index is [-1], not [0]. *)
Example binary64_left_edge :
  Binary64.rhalfs_to_pixels (-0.1) 3 0.1 = (-1)%Z
  /\ rhalfs_to_pixels (-0.1) 3 0.1 = 0%Z.
Proof.
  split; [vm_compute; reflexivity |].
  rewrite rhalfs_to_pixels_index. index_eval.
Qed.

(** A coordinate whose index is no [int]: the cast yields [INT_MIN]. *)
Example binary64_far_coordinate :
  Binary64.rhalfs_to_pixels 1e10 5 1 = INT_MIN
  /\ rhalfs_to_pixels 1e10 5 1 = 25000000002%Z
  /\ ~ int_range (rhalfs_to_pixels 1e10 5 1).
Proof.
  assert (E : rhalfs_to_pixels 1e10 5 1 = 25000000002%Z)
    by (rewrite rhalfs_to_pixels_index; index_eval).
  split; [vm_compute; reflexivity |]. split; [exact E |].
  rewrite E. unfold int_range, INT_MIN, INT_MAX. lia.
Qed.

(** A large [h]: [7.0*pi*h*h] overflows, the normalisation is [0.0] and so
    is the kernel at [r = 0]. *)
Example binary64_large_h :
  Binary64.sph_kernel 0 1e200 = 0%float /\ 0 < sph_kernel 0 1e200.
Proof.
  split; [vm_compute; reflexivity |].
  apply sph_kernel_pos_inner; lra.
Qed.

(** A smoothing length of zero: at the cell of the source [r / h] is
    [0 / 0], a NaN, so that no comparison holds and the third branch is
    taken; the normalisation [40 / 0] is infinite and [inf * 0.0] is NaN,
    which is added to the cell also with a weight of zero. *)
Example binary64_zero_hsml :
  Binary64.add [-0.5; 0.5; -0.5; 0.5]%float [-0.5; -0.5; 0.5; 0.5]%float
    [1; 2; 3; 4]%float 2 2 [0.5]%float [0.5]%float [0]%float [0]%float 1 1
  = Some [1; 2; 3; PrimFloat.nan]%float.
Proof. vm_compute. reflexivity. Qed.

(** A grid higher than wide ([nx = 1], [ny = 2]): in binary64 too the read
    of [X[2]] is outside the arrays. *)
Example binary64_tall_grid :
  Binary64.add [0; 0]%float [-0.5; 0.5]%float [0; 0]%float 1 2
    [0]%float [0.5]%float [1]%float [0.1]%float 1 1 = None.
Proof. vm_compute. reflexivity. Qed.
